(** * A shallow embedding of [lisp.cpp]: reader and evaluator

    The program reads one parenthesised expression from a text buffer
    ([parser::parse]) and reduces the tree to a value
    ([interpreter::eval]).  The embedding follows the C++ source
    function by function and keeps its names.

    - [double] is IEEE-754 binary64, as Rocq's primitive floats.
    - A [lisp_object_ptr] ([std::shared_ptr<lisp_object>]) is an
      [option]: [None] is the null pointer.  Nodes are never mutated, so
      sharing is not observable and a pointer is modelled by its pointee.
    - A member function runs on the object's mutable field ([index] for
      the parser, [globalEnv] for the interpreter) and ends in one of
      three ways, [outcome]: it returns, it throws, or it runs into
      behaviour the C++ standard leaves undefined.
    - The depth of calls is bounded by the implementation, not by the
      standard: [parse_framed] is [parse] with the room of its call
      stack made explicit. *)

From Stdlib Require Import ZArith Ascii String Floats DecimalString.
From stdpp Require Import base option list gmap strings.

Set Warnings "-register-all".

(** ** Objects *)

Definition double := PrimFloat.float.

Inductive lisp_object : Type :=
| lisp_number (value : double)
| lisp_symbol (name : string)
| lisp_list (elements : list (option lisp_object)).

Abbreviation lisp_object_ptr := (option lisp_object).

(** The exceptions of the program: its own [std::runtime_error]s and the
    two [std::stod] can throw. *)
Inductive exception : Type :=
| runtime_error (what : string)
| invalid_argument
| out_of_range.

Inductive outcome (S A : Type) : Type :=
| Returns (a : A) (s : S)
| Throws (e : exception) (s : S)
| Undefined.
Arguments Returns {S A} a s.
Arguments Throws {S A} e s.
Arguments Undefined {S A}.

(** ** <cctype>, in the "C" locale

    The digits are [0] to [9]; the white space is the space and the
    characters 9 to 13 (tab, line feed, vertical tab, form feed,
    carriage return).  No byte above 127 is either. *)

Definition isdigit (c : ascii) : bool :=
  let n := nat_of_ascii c in (48 <=? n)%nat && (n <=? 57)%nat.

Definition isspace (c : ascii) : bool :=
  let n := nat_of_ascii c in (n =? 32)%nat || ((9 <=? n)%nat && (n <=? 13)%nat).

(** ** std::stod

    [std::stod] converts the longest prefix of its argument that is a
    floating-point literal and ignores what follows; it throws
    [invalid_argument] when no prefix converts and [out_of_range] when
    [strtod] reports a range error.  The reader only ever passes runs of
    digits and points ([number_lexeme_chars] below), so the literal is
    [digits], [digits.digits], [digits.] or [.digits]. *)

Fixpoint digits (s : string) : string :=
  match s with
  | String c s' => if isdigit c then String c (digits s') else ""
  | "" => ""
  end.

Fixpoint after_digits (s : string) : string :=
  match s with
  | String c s' => if isdigit c then after_digits s' else s
  | "" => ""
  end.

(** The subject sequence of [strtod]: [None] when no conversion can be
    performed. *)
Definition subject_sequence (s : string) : option string :=
  let ip := digits s in
  match after_digits s with
  | String "." r =>
      let fp := digits r in
      if (String.length ip + String.length fp =? 0)%nat then None
      else Some (ip +:+ "." +:+ fp)
  | _ => if (String.length ip =? 0)%nat then None else Some ip
  end.

Section reader.

(** The value [strtod] gives a subject sequence; [None] when it
    reports a range error. *)
Variable strtod_decimal : string -> option double.

Definition stod (number : string) : exception + double :=
  match subject_sequence number with
  | None => inl invalid_argument
  | Some subject =>
      match strtod_decimal subject with
      | None => inl out_of_range
      | Some v => inr v
      end
  end.

(** ** class parser *)

(** [input[index]]: the character at [index], the terminating NUL at
    [index = input.length()].  Reading further is undefined; the one
    unguarded read of the source is in [parse_elements], which checks
    for it. *)
Definition currentChar (input : string) (index : nat) : ascii :=
  match String.get index input with
  | Some c => c
  | None => "000"%char
  end.

Fixpoint skipWhitespace_loop (n : nat) (input : string) (index : nat) : nat :=
  match n with
  | O => index
  | S n' =>
      if (index <? String.length input)%nat && isspace (currentChar input index)
      then skipWhitespace_loop n' input (S index)
      else index
  end.

Definition skipWhitespace (input : string) (index : nat) : nat :=
  skipWhitespace_loop (String.length input - index) input index.

(** The loop of the number branch: appends to [number] while the
    current character is a digit or a point. *)
Fixpoint number_loop (n : nat) (input : string) (index : nat) (number : string)
  : string * nat :=
  match n with
  | O => (number, index)
  | S n' =>
      if (index <? String.length input)%nat
         && (isdigit (currentChar input index)
             || Ascii.eqb (currentChar input index) ".")
      then number_loop n' input (S index)
             (number +:+ String (currentChar input index) "")
      else (number, index)
  end.

Definition number_lexeme (input : string) (index : nat) : string * nat :=
  number_loop (String.length input - index) input index "".

(** The loop of the symbol branch: stops at white space and at [)]. *)
Fixpoint symbol_loop (n : nat) (input : string) (index : nat) (symbol : string)
  : string * nat :=
  match n with
  | O => (symbol, index)
  | S n' =>
      if (index <? String.length input)%nat
         && negb (isspace (currentChar input index))
         && negb (Ascii.eqb (currentChar input index) ")")
      then symbol_loop n' input (S index)
             (symbol +:+ String (currentChar input index) "")
      else (symbol, index)
  end.

Definition symbol_lexeme (input : string) (index : nat) : string * nat :=
  symbol_loop (String.length input - index) input index "".

Definition UnexpectedEndOfInput : exception :=
  runtime_error "Unexpected end of input".

(** The test of the number branch: a digit, or [-] with a digit next. *)
Definition number_start (input : string) (index : nat) : bool :=
  let c := currentChar input index in
  isdigit c
  || (Ascii.eqb c "-"
      && (index + 1 <? String.length input)%nat
      && isdigit (currentChar input (index + 1))).

(** The number branch: the lexeme goes to [std::stod], whose exception
    leaves [parse]. *)
Definition parse_number (input : string) (index : nat) : outcome nat lisp_object_ptr :=
  let '(number, index') := number_lexeme input index in
  match stod number with
  | inr value => Returns (Some (lisp_number value)) index'
  | inl e => Throws e index'
  end.

(** The symbol branch. *)
Definition parse_symbol (input : string) (index : nat) : outcome nat lisp_object_ptr :=
  let '(symbol, index') := symbol_lexeme input index in
  Returns (Some (lisp_symbol symbol)) index'.

(** [parser::parse], on the buffer [input] and the cursor [index].
    The recursion of the source is on the text left to read; here it
    is on [fuel], and [None] means the fuel ran out ([parse_fuel]
    shows that [2 * length + 1] always suffices).  [parse_elements]
    is the [while] loop of the list branch. *)
Fixpoint parse (fuel : nat) (input : string) (index : nat) {struct fuel}
  : option (outcome nat lisp_object_ptr) :=
  match fuel with
  | O => None
  | S fuel' =>
      let index := skipWhitespace input index in
      if (String.length input <=? index)%nat
      then Some (Throws UnexpectedEndOfInput index)
      else if Ascii.eqb (currentChar input index) "("
      then parse_elements fuel' input (S index) []
      else if number_start input index
      then Some (parse_number input index)
      else Some (parse_symbol input index)
  end
with parse_elements (fuel : nat) (input : string) (index : nat)
       (elements : list lisp_object_ptr) {struct fuel}
  : option (outcome nat lisp_object_ptr) :=
  match fuel with
  | O => None
  | S fuel' =>
      if (String.length input <? index)%nat then Some Undefined
      else if negb (Ascii.eqb (currentChar input index) ")") then
        match parse fuel' input index with
        | Some (Returns e index') =>
            parse_elements fuel' input (skipWhitespace input index')
              (elements ++ [e])
        | r => r
        end
      else Some (Returns (Some (lisp_list elements)) (S index))
  end.

(** [parser(input).parse()]: a fresh parser starts at index 0. *)
Definition parser_parse (input : string) : option (outcome nat lisp_object_ptr) :=
  parse (2 * String.length input + 1) input 0.

End reader.

(** ** The call stack of the parser

    [parse] calls itself for every element of a list, so a run holds
    one call for every list it is inside of, and one more.  The
    standard sets no bound on the depth of calls; an implementation
    does, and a call its stack cannot hold ends the run outside what
    the standard describes.  [parse_framed] is [parse] on a stack with
    room for [frames] calls: a call made with no room left is
    [Undefined].  The loop of the list branch runs in the frame of its
    call. *)

Section reader_frames.

Variable strtod_decimal : string -> option double.

Fixpoint parse_framed (fuel frames : nat) (input : string) (index : nat) {struct fuel}
  : option (outcome nat lisp_object_ptr) :=
  match fuel with
  | O => None
  | S fuel' =>
      match frames with
      | O => Some Undefined
      | S frames' =>
          let index := skipWhitespace input index in
          if (String.length input <=? index)%nat
          then Some (Throws UnexpectedEndOfInput index)
          else if Ascii.eqb (currentChar input index) "("
          then parse_elements_framed fuel' frames' input (S index) []
          else if number_start input index
          then Some (parse_number strtod_decimal input index)
          else Some (parse_symbol input index)
      end
  end
with parse_elements_framed (fuel frames : nat) (input : string) (index : nat)
       (elements : list lisp_object_ptr) {struct fuel}
  : option (outcome nat lisp_object_ptr) :=
  match fuel with
  | O => None
  | S fuel' =>
      if (String.length input <? index)%nat then Some Undefined
      else if negb (Ascii.eqb (currentChar input index) ")") then
        match parse_framed fuel' frames input index with
        | Some (Returns e index') =>
            parse_elements_framed fuel' frames input (skipWhitespace input index')
              (elements ++ [e])
        | r => r
        end
      else Some (Returns (Some (lisp_list elements)) (S index))
  end.

(** [parser(input).parse()] on a stack with room for [frames] calls. *)
Definition parser_parse_framed (frames : nat) (input : string)
  : option (outcome nat lisp_object_ptr) :=
  parse_framed (2 * String.length input + 1) frames input 0.

End reader_frames.

(** ** The conversion of [strtod]

    The reader is stated for any conversion [strtod_decimal]; this is
    the one the examples run with.  [strtod] returns the double nearest
    to the decimal value of the subject sequence (ties to even) and
    reports a range error when the value overflows.  On underflow this
    instance returns the rounded value; whether [strtod] reports a
    range error there is implementation-defined, and no theorem below
    reads such a value. *)

Definition digit_value (c : ascii) : Z := Z.of_nat (nat_of_ascii c) - 48.

(** The digits of the subject sequence read as one integer... *)
Fixpoint decimal_mantissa (s : string) (acc : Z) : Z :=
  match s with
  | String c s' =>
      if isdigit c then decimal_mantissa s' (10 * acc + digit_value c)
      else decimal_mantissa s' acc
  | "" => acc
  end.

(** ... and the number of them behind the point. *)
Fixpoint decimal_scale (s : string) : nat :=
  match s with
  | String c s' => if Ascii.eqb c "." then String.length s' else decimal_scale s'
  | "" => O
  end.

(** [m / d] rounded to binary64, to nearest, ties to even. *)
Definition round_binary64 (m d : Z) : option double :=
  if (m =? 0)%Z then Some PrimFloat.zero
  else
    let e1 := (Z.log2 m - Z.log2 d - 52)%Z in
    let scaled (e : Z) := (m * 2 ^ Z.max 0 (- e) / (d * 2 ^ Z.max 0 e))%Z in
    let e := if (2 ^ 52 <=? scaled e1)%Z then e1 else (e1 - 1)%Z in
    let e := Z.max e (-1074) in
    let num := (m * 2 ^ Z.max 0 (- e))%Z in
    let den := (d * 2 ^ Z.max 0 e)%Z in
    let q := (num / den)%Z in
    let r := (num mod den)%Z in
    let q := if (den <? 2 * r)%Z || ((den =? 2 * r)%Z && Z.odd q)
             then (q + 1)%Z else q in
    if (2 ^ 1024 <=? q * 2 ^ Z.max 0 e)%Z then None
    else Some (Z.ldexp (PrimFloat.of_uint63 (Uint63.of_Z q)) e).

Definition strtod_nearest (subject : string) : option double :=
  round_binary64 (decimal_mantissa subject 0) (10 ^ Z.of_nat (decimal_scale subject)).

(** ** class interpreter *)

(** A member function of the interpreter: it runs on [globalEnv]. *)
Definition M (A : Type) : Type :=
  gmap string lisp_object_ptr -> outcome (gmap string lisp_object_ptr) A.

Definition ret {A} (a : A) : M A := fun env => Returns a env.
Definition throw {A} (e : exception) : M A := fun env => Throws e env.
Definition undefined {A} : M A := fun _ => Undefined.
Definition bind {A B} (m : M A) (k : A -> M B) : M B :=
  fun env =>
    match m env with
    | Returns a env' => k a env'
    | Throws e env' => Throws e env'
    | Undefined => Undefined
    end.

Notation "'let*' x ':=' m 'in' k" := (bind m (fun x => k))
  (at level 10, x name, m at level 100, k at level 200).

(** The constructor fills the table with the four operator names, each
    bound to a symbol of its own name. *)
Definition interpreter_init : gmap string lisp_object_ptr :=
  <["/" := Some (lisp_symbol "/")]>
    (<["*" := Some (lisp_symbol "*")]>
       (<["-" := Some (lisp_symbol "-")]>
          (<["+" := Some (lisp_symbol "+")]> ∅))).

(** [globalEnv[name]]: [std::map::operator[]] returns the mapped value
    and, when the key is absent, first inserts it with a
    value-initialised (null) pointer. *)
Definition globalEnv_index (name : string) : M lisp_object_ptr :=
  fun env =>
    match env !! name with
    | Some p => Returns p env
    | None => Returns None (<[name := None]> env)
    end.

Section reductions.

Variable eval : lisp_object_ptr -> M lisp_object_ptr.

(** [dynamic_cast<lisp_number*>(eval(arg).get())->getValue()]: the
    cast of anything but a number is null, and the call through it is
    undefined. *)
Definition number_value (arg : lisp_object_ptr) : M double :=
  let* r := eval arg in
  match r with
  | Some (lisp_number value) => ret value
  | _ => undefined
  end.

(** The [for] loop the four reductions share: [result op= value] for
    each argument in turn. *)
Fixpoint reduce (op : double -> double -> double)
  (args : list lisp_object_ptr) (result : double) : M double :=
  match args with
  | [] => ret result
  | arg :: args' =>
      let* value := number_value arg in reduce op args' (op result value)
  end.

Definition evalAdd (args : list lisp_object_ptr) : M lisp_object_ptr :=
  let* sum := reduce PrimFloat.add args PrimFloat.zero in
  ret (Some (lisp_number sum)).

(** [args[0]] of an empty vector is undefined. *)
Definition evalSubtract (args : list lisp_object_ptr) : M lisp_object_ptr :=
  match args with
  | [] => undefined
  | arg0 :: rest =>
      let* result := number_value arg0 in
      let* result := reduce PrimFloat.sub rest result in
      ret (Some (lisp_number result))
  end.

Definition evalMultiply (args : list lisp_object_ptr) : M lisp_object_ptr :=
  let* product := reduce PrimFloat.mul args PrimFloat.one in
  ret (Some (lisp_number product)).

Definition evalDivide (args : list lisp_object_ptr) : M lisp_object_ptr :=
  match args with
  | [] => undefined
  | arg0 :: rest =>
      let* result := number_value arg0 in
      let* result := reduce PrimFloat.div rest result in
      ret (Some (lisp_number result))
  end.

End reductions.

Definition UnknownExpression : exception := runtime_error "Unknown expression".
Definition UnknownOperator (name : string) : exception :=
  runtime_error ("Unknown operator: " +:+ name).

(** [interpreter::eval] on a non-null pointer.  In the list branch
    [operatorSymbol] is null unless the first element is a symbol, and
    [operatorSymbol->getName()] is then undefined. *)
Fixpoint eval_object (expr : lisp_object) : M lisp_object_ptr :=
  match expr with
  | lisp_number _ => ret (Some expr)
  | lisp_symbol name => globalEnv_index name
  | lisp_list elements =>
      match elements with
      | [] => ret None
      | operatorSymbol :: args =>
          let eval (p : lisp_object_ptr) : M lisp_object_ptr :=
            match p with
            | Some o => eval_object o
            | None => throw UnknownExpression
            end in
          match operatorSymbol with
          | Some (lisp_symbol name) =>
              if String.eqb name "+" then evalAdd eval args
              else if String.eqb name "-" then evalSubtract eval args
              else if String.eqb name "*" then evalMultiply eval args
              else if String.eqb name "/" then evalDivide eval args
              else throw (UnknownOperator name)
          | _ => undefined
          end
      end
  end.

(** [interpreter::eval]: on a null pointer every cast fails and the
    function falls through to its last [throw]. *)
Definition eval (expr : lisp_object_ptr) : M lisp_object_ptr :=
  match expr with
  | Some o => eval_object o
  | None => throw UnknownExpression
  end.

(** [main] on a given input: parse with a fresh parser, then evaluate
    with a fresh interpreter.  [None] stands for a failed or undefined
    parse, whose outcome [parser_parse] gives. *)
Definition evaluate_parsed (input : string)
  : option (outcome (gmap string lisp_object_ptr) lisp_object_ptr) :=
  match parser_parse strtod_nearest input with
  | Some (Returns parsedExpression _) => Some (eval parsedExpression interpreter_init)
  | _ => None
  end.

(** ** toString *)

Section printer.

(** [std::to_string(double)]. *)
Variable to_string : double -> string.

Section elements.

Variable toString : lisp_object -> option string.

(** The loop of [lisp_list::toString] over the elements left, [oss]
    being the text written so far.  The test [i < elements.size() - 1]
    holds when the element is not the last one.  [None]: the call of
    [toString] through a null element, which is undefined. *)
Fixpoint elements_toString (elements : list lisp_object_ptr) (oss : string)
  : option string :=
  match elements with
  | [] => Some oss
  | element :: rest =>
      match element with
      | Some e =>
          match toString e with
          | Some s =>
              elements_toString rest
                ((oss +:+ s) +:+ match rest with [] => "" | _ :: _ => " " end)
          | None => None
          end
      | None => None
      end
  end.

End elements.

(** [lisp_number::toString], [lisp_symbol::toString] and
    [lisp_list::toString]. *)
Fixpoint toString (o : lisp_object) : option string :=
  match o with
  | lisp_number value => Some (to_string value)
  | lisp_symbol name => Some name
  | lisp_list elements =>
      match elements_toString toString elements "(" with
      | Some oss => Some (oss +:+ ")")
      | None => None
      end
  end.

End printer.

(** ** The text of [std::to_string]

    The printer is stated for any [to_string]; this is the one the
    examples run with.  [std::to_string(double)] writes as [printf]
    does with [%f]: the decimal expansion rounded to six places (to
    nearest, ties to even, on the exact value), [inf] for an infinity.
    A NaN is written [nan] or [-nan] by its sign bit, which this
    [double] does not carry; no theorem below reads the text of a
    NaN. *)

Definition decimal (n : Z) : string := NilZero.string_of_uint (N.to_uint (Z.to_N n)).

Definition fixed6 (scaled : Z) : string :=
  decimal (scaled / 10 ^ 6) +:+ "." +:+
  match decimal (10 ^ 6 + scaled mod 10 ^ 6) with
  | String _ places => places
  | "" => ""
  end.

Definition to_string_f (x : double) : string :=
  let sign (s : bool) := if s then "-" else "" in
  match Prim2SF x with
  | S754_zero s => sign s +:+ fixed6 0
  | S754_infinity s => sign s +:+ "inf"
  | S754_nan => "nan"
  | S754_finite s m e =>
      let num := (Zpos m * 2 ^ Z.max 0 e * 10 ^ 6)%Z in
      let den := (2 ^ Z.max 0 (- e))%Z in
      let q := (num / den)%Z in
      let r := (num mod den)%Z in
      let q := if (den <? 2 * r)%Z || ((den =? 2 * r)%Z && Z.odd q)
               then (q + 1)%Z else q in
      sign s +:+ fixed6 q
  end.

(** * The vocabulary of the properties

    What follows is not program text: these are the notions the
    properties of the program are stated with. *)

(** ** Evaluator *)

(** The values of the operands of a form: each operand evaluated in
    turn, left to right, on the table the previous one left, and read as
    a number. *)
Fixpoint operand_values (args : list lisp_object_ptr) : M (list double) :=
  match args with
  | [] => ret []
  | arg :: args' =>
      let* value := number_value eval arg in
      let* values := operand_values args' in
      ret (value :: values)
  end.

Definition operator_names : list string := ["+"; "-"; "*"; "/"].

(** The tables the interpreter can hold: the table of the constructor,
    with null entries added under other names ([registry_state_eval]
    shows that [eval] keeps the table so). *)
Definition registry_state (env : gmap string lisp_object_ptr) : Prop :=
  forall name,
    env !! name = interpreter_init !! name
    \/ (interpreter_init !! name = None /\ env !! name = Some None).

(** The table with which a call ended, when the call returned or
    threw. *)
Definition final_state {S A} (o : outcome S A) : option S :=
  match o with
  | Returns _ s => Some s
  | Throws _ s => Some s
  | Undefined => None
  end.

(** The symbols [eval] looks up in the table: those in value position,
    that is, a bare symbol and the symbols among the operands of a form,
    but not the symbol that heads a form. *)
Fixpoint value_symbols (expr : lisp_object) : list string :=
  match expr with
  | lisp_number _ => []
  | lisp_symbol name => [name]
  | lisp_list elements =>
      match elements with
      | [] => []
      | _ :: args =>
          flat_map (fun p : lisp_object_ptr =>
                      match p with
                      | Some o => value_symbols o
                      | None => []
                      end) args
      end
  end.

Definition pointer_value_symbols (expr : lisp_object_ptr) : list string :=
  match expr with
  | Some o => value_symbols o
  | None => []
  end.

(** [env'] is [env] with null entries added for some of [names]. *)
Definition nulls_added (names : list string)
  (env env' : gmap string lisp_object_ptr) : Prop :=
  forall name,
    env' !! name = env !! name
    \/ (env !! name = None /\ env' !! name = Some None /\ name ∈ names).

Definition frame {A} (names : list string) (m : M A) : Prop :=
  forall env env', final_state (m env) = Some env' -> nulls_added names env env'.

(** Two tables in which every lookup returns the same pointer: an
    absent name and a name bound to the null pointer both give null. *)
Definition lookup_agree (env1 env2 : gmap string lisp_object_ptr) : Prop :=
  forall name, default None (env1 !! name) = default None (env2 !! name).

(** Two calls that end the same way, on tables that agree. *)
Definition same_outcome {A} (o1 o2 : outcome (gmap string lisp_object_ptr) A) : Prop :=
  match o1, o2 with
  | Returns a1 env1, Returns a2 env2 => a1 = a2 /\ lookup_agree env1 env2
  | Throws e1 env1, Throws e2 env2 => e1 = e2 /\ lookup_agree env1 env2
  | Undefined, Undefined => True
  | _, _ => False
  end.

Definition lookup_determined {A} (m : M A) : Prop :=
  forall env1 env2, lookup_agree env1 env2 -> same_outcome (m env1) (m env2).

(** Induction on objects, through the vectors of pointers they hold. *)
Definition pointee_holds (P : lisp_object -> Prop) (p : lisp_object_ptr) : Prop :=
  match p with
  | Some o => P o
  | None => True
  end.

(** An infinity or a NaN. *)
Definition not_finite (x : double) : Prop :=
  x = PrimFloat.infinity \/ x = PrimFloat.neg_infinity \/ x = PrimFloat.nan.

(** The operand is a zero, of either sign. *)
Definition is_zero (d : double) : Prop := PrimFloat.eqb d PrimFloat.zero = true.

(** The claim as the specification words it: a division form with a
    zero divisor fails. *)
Definition division_by_zero_fails : Prop :=
  forall arg0 rest env v0 vs env',
    operand_values (arg0 :: rest) env = Returns (v0 :: vs) env' ->
    Exists is_zero vs ->
    exists e env'',
      eval (Some (lisp_list (Some (lisp_symbol "/") :: arg0 :: rest))) env
      = Throws e env''.

(** The claim as the specification words it: a symbol outside the four
    operator names fails to evaluate. *)
Definition unbound_symbol_fails : Prop :=
  forall name, name ∉ operator_names ->
    exists e env', eval (Some (lisp_symbol name)) interpreter_init = Throws e env'.

(** The claim as the specification words it: an evaluation that
    returns or throws leaves the table of the constructor as it was. *)
Definition registry_unchanged : Prop :=
  forall expr env',
    final_state (eval expr interpreter_init) = Some env' ->
    env' = interpreter_init.

(** ** Reader *)

(** The three [while] loops of the parser read a run of characters that
    pass a test: [run_end] is where the run that starts at [index] ends
    and [run_chars] is its text. *)
Fixpoint run_end (keep : ascii -> bool) (n : nat) (input : string) (index : nat) : nat :=
  match n with
  | O => index
  | S n' =>
      if (index <? String.length input)%nat && keep (currentChar input index)
      then run_end keep n' input (S index)
      else index
  end.

Fixpoint run_chars (keep : ascii -> bool) (n : nat) (input : string) (index : nat)
  : string :=
  match n with
  | O => ""
  | S n' =>
      if (index <? String.length input)%nat && keep (currentChar input index)
      then String (currentChar input index) (run_chars keep n' input (S index))
      else ""
  end.

(** The tests of the number loop and of the symbol loop. *)
Definition numeric (c : ascii) : bool := isdigit c || Ascii.eqb c ".".

Definition symbolic (c : ascii) : bool := negb (isspace c) && negb (Ascii.eqb c ")").

Section reader_relation.

Variable strtod_decimal : string -> option double.

(** [parses input index r]: a call of [parse] with the cursor at
    [index] ends with [r]; [parses_elements] is the same for the loop
    of the list branch.  The relation has one rule per path through the
    source; [parse_parses] and [parses_parse] show it is the graph of
    the function. *)
Inductive parses (input : string) : nat -> outcome nat lisp_object_ptr -> Prop :=
| parses_end index :
    String.length input <= skipWhitespace input index ->
    parses input index (Throws UnexpectedEndOfInput (skipWhitespace input index))
| parses_list index r :
    skipWhitespace input index < String.length input ->
    currentChar input (skipWhitespace input index) = "("%char ->
    parses_elements input (S (skipWhitespace input index)) [] r ->
    parses input index r
| parses_number index :
    skipWhitespace input index < String.length input ->
    currentChar input (skipWhitespace input index) <> "("%char ->
    number_start input (skipWhitespace input index) = true ->
    parses input index (parse_number strtod_decimal input (skipWhitespace input index))
| parses_symbol index :
    skipWhitespace input index < String.length input ->
    currentChar input (skipWhitespace input index) <> "("%char ->
    number_start input (skipWhitespace input index) = false ->
    parses input index (parse_symbol input (skipWhitespace input index))
with parses_elements (input : string)
  : nat -> list lisp_object_ptr -> outcome nat lisp_object_ptr -> Prop :=
| elements_past index elements :
    String.length input < index ->
    parses_elements input index elements Undefined
| elements_close index elements :
    index <= String.length input ->
    currentChar input index = ")"%char ->
    parses_elements input index elements (Returns (Some (lisp_list elements)) (S index))
| elements_child index elements e index' r :
    index <= String.length input ->
    currentChar input index <> ")"%char ->
    parses input index (Returns e index') ->
    parses_elements input (skipWhitespace input index') (elements ++ [e]) r ->
    parses_elements input index elements r
| elements_throw index elements ex index' :
    index <= String.length input ->
    currentChar input index <> ")"%char ->
    parses input index (Throws ex index') ->
    parses_elements input index elements (Throws ex index')
| elements_undefined index elements :
    index <= String.length input ->
    currentChar input index <> ")"%char ->
    parses input index Undefined ->
    parses_elements input index elements Undefined.

Scheme parses_mut := Minimality for parses Sort Prop
  with parses_elements_mut := Minimality for parses_elements Sort Prop.
Combined Scheme parses_mutual from parses_mut, parses_elements_mut.

End reader_relation.

(** What [parse] and its loop return lies inside the buffer, after the
    position they started from, and they never read past the
    terminator. *)
Definition ends_within (input : string) (index : nat) (strict : Prop)
  (r : outcome nat lisp_object_ptr) : Prop :=
  match r with
  | Returns _ index' =>
      index <= index' /\ index' <= String.length input /\ (strict -> index < index')
  | Throws _ index' => index' <= String.length input
  | Undefined => False
  end.

Definition reader_exception (e : exception) : Prop :=
  e = UnexpectedEndOfInput \/ e = invalid_argument \/ e = out_of_range.

(** The first thing in [input] after white space is an opening
    parenthesis. *)
Definition opens_list (input : string) : Prop :=
  skipWhitespace input 0 < String.length input
  /\ currentChar input (skipWhitespace input 0) = "("%char.






(** The input starts, after white space, with [-] and a digit. *)
Definition sign_led (input : string) : Prop :=
  currentChar input (skipWhitespace input 0) = "-"%char
  /\ skipWhitespace input 0 + 1 < String.length input
  /\ isdigit (currentChar input (skipWhitespace input 0 + 1)) = true.

(** The input starts, after white space, with a digit. *)
Definition digit_led (input : string) : Prop :=
  skipWhitespace input 0 < String.length input
  /\ isdigit (currentChar input (skipWhitespace input 0)) = true.

(** The lexeme of the number branch is not a literal: [std::stod]
    converts a proper prefix of it only. *)
Definition malformed (number : string) : Prop :=
  subject_sequence number <> Some number.

(** The claim as the specification words it: a malformed numeric lexeme
    makes the parse fail. *)
Definition malformed_lexeme_fails (strtod_decimal : string -> option double) : Prop :=
  forall input,
    skipWhitespace input 0 < String.length input ->
    number_start input (skipWhitespace input 0) = true ->
    malformed (fst (number_lexeme input (skipWhitespace input 0))) ->
    exists e index, parser_parse strtod_decimal input = Some (Throws e index).

(** ** Trees *)

(** A tree that holds no null pointer, as the reader builds them. *)
Fixpoint no_null (expr : lisp_object) : bool :=
  match expr with
  | lisp_number _ => true
  | lisp_symbol _ => true
  | lisp_list elements =>
      forallb (fun p : lisp_object_ptr =>
                 match p with
                 | Some o => no_null o
                 | None => false
                 end) elements
  end.

Definition pointer_no_null (p : lisp_object_ptr) : bool :=
  match p with
  | Some o => no_null o
  | None => false
  end.

Definition is_number (p : lisp_object_ptr) : bool :=
  match p with
  | Some (lisp_number _) => true
  | _ => false
  end.

Definition is_list (p : lisp_object_ptr) : bool :=
  match p with
  | Some (lisp_list _) => true
  | _ => false
  end.

Definition is_symbol (p : lisp_object_ptr) : bool :=
  match p with
  | Some (lisp_symbol _) => true
  | _ => false
  end.

(** The four reductions, by the name of their operator. *)
Definition is_operator (name : string) : bool :=
  String.eqb name "+" || String.eqb name "-" || String.eqb name "*" || String.eqb name "/".

(** An arithmetic expression: a number, or a form headed by one of the
    four operator symbols whose operands are arithmetic expressions, at
    least one of them when the operator is [-] or [/]. *)
Fixpoint arithmetic (expr : lisp_object) : bool :=
  match expr with
  | lisp_number _ => true
  | lisp_symbol _ => false
  | lisp_list elements =>
      match elements with
      | Some (lisp_symbol name) :: args =>
          is_operator name
          && (String.eqb name "+" || String.eqb name "*"
              || negb (Nat.eqb (length args) 0))
          && forallb (fun p : lisp_object_ptr =>
                        match p with
                        | Some o => arithmetic o
                        | None => false
                        end) args
      | _ => false
      end
  end.

(** The value of an arithmetic expression: sums from 0, products from
    1, differences and quotients from the first operand, all from left
    to right in [double] arithmetic. *)
Fixpoint denote (expr : lisp_object) : double :=
  match expr with
  | lisp_number value => value
  | lisp_symbol _ => PrimFloat.zero
  | lisp_list elements =>
      match elements with
      | Some (lisp_symbol name) :: args =>
          let values :=
            map (fun p : lisp_object_ptr =>
                   match p with
                   | Some o => denote o
                   | None => PrimFloat.zero
                   end) args in
          if String.eqb name "+" then fold_left PrimFloat.add values PrimFloat.zero
          else if String.eqb name "*" then fold_left PrimFloat.mul values PrimFloat.one
          else
            match values with
            | first :: others =>
                if String.eqb name "-" then fold_left PrimFloat.sub others first
                else fold_left PrimFloat.div others first
            | [] => PrimFloat.zero
            end
      | _ => PrimFloat.zero
      end
  end.

(** Every exception a call can throw satisfies [P]. *)
Definition throws_only {A} (P : exception -> Prop) (m : M A) : Prop :=
  forall env ex env', m env = Throws ex env' -> P ex.

(** The exception of an operator that is not one of the four. *)
Definition unknown_operator (ex : exception) : Prop :=
  exists name, ex = UnknownOperator name /\ is_operator name = false.

(** ** Texts *)

(** A text of white space only. *)
Fixpoint blank (s : string) : bool :=
  match s with
  | String c s' => isspace c && blank s'
  | "" => true
  end.

(** The text ends, or goes on with a character that ends a symbol and a
    number alike: white space or a closing parenthesis. *)
Definition stops (rest : string) : bool :=
  match rest with
  | String c _ => isspace c || Ascii.eqb c ")"
  | "" => true
  end.

Fixpoint all_chars (keep : ascii -> bool) (s : string) : bool :=
  match s with
  | String c s' => keep c && all_chars keep s'
  | "" => true
  end.

(** An outcome of the reader with its cursor moved [n] characters on. *)
Definition shift_outcome (n : nat) (r : outcome nat lisp_object_ptr)
  : outcome nat lisp_object_ptr :=
  match r with
  | Returns a index => Returns a (n + index)
  | Throws ex index => Throws ex (n + index)
  | Undefined => Undefined
  end.

(** The text [rest] does not go on with a character of the run. *)
Definition ends_run (keep : ascii -> bool) (rest : string) : Prop :=
  match rest with
  | String c _ => keep c = false
  | "" => True
  end.

(** The input starts, after white space, with a character that enters
    the symbol branch. *)
Definition symbol_led (input : string) : Prop :=
  skipWhitespace input 0 < String.length input
  /\ currentChar input (skipWhitespace input 0) <> "("%char
  /\ number_start input (skipWhitespace input 0) = false.

(** ** Texts that read back *)

(** The text starts with a character that is neither white space nor a
    closing parenthesis. *)
Definition starts (s : string) : bool :=
  match s with
  | String c _ => symbolic c
  | "" => false
  end.

(** A name the reader reads as a symbol, whole: it is not empty, holds
    no white space and no closing parenthesis, and does not start as a
    list or as a number does. *)
Definition plain_name (name : string) : bool :=
  match name with
  | String c rest =>
      negb (Ascii.eqb c "(")
      && negb (isdigit c)
      && negb (Ascii.eqb c "-" && match rest with
                                  | String d _ => isdigit d
                                  | "" => false
                                  end)
      && all_chars symbolic name
  | "" => false
  end.

Section reading_back.

Variable to_string : double -> string.
Variable strtod_decimal : string -> option double.

(** The text of the number is a run of digits and points that starts
    with a digit, and [std::stod] reads the number back from it. *)
Definition reads_back (value : double) : bool :=
  match to_string value with
  | String c _ => isdigit c
  | "" => false
  end
  && all_chars numeric (to_string value)
  && match stod strtod_decimal (to_string value) with
     | inr value' => PrimFloat.Leibniz.eqb value' value
     | inl _ => false
     end.

(** A tree whose leaves all read back and that holds no null pointer. *)
Fixpoint printable (expr : lisp_object) : bool :=
  match expr with
  | lisp_number value => reads_back value
  | lisp_symbol name => plain_name name
  | lisp_list elements =>
      forallb (fun p : lisp_object_ptr =>
                 match p with
                 | Some o => printable o
                 | None => false
                 end) elements
  end.

(** The text of a printable tree starts with the first character of a
    token and is read back as the tree, whatever follows it that ends a
    lexeme. *)
Definition reads_as (expr : lisp_object) : Prop :=
  printable expr = true ->
  exists s,
    toString to_string expr = Some s
    /\ starts s = true
    /\ forall rest, stops rest = true ->
         parses strtod_decimal (s +:+ rest) 0 (Returns (Some expr) (String.length s)).

End reading_back.

(** ** Literals *)

(** [lexeme] is the run of digits and points of [input] that starts at
    [start]: it is that part of the input, it holds digits and points
    only, and the input ends after it or goes on with another
    character. *)
Definition numeric_run (input : string) (start : nat) (lexeme : string) : Prop :=
  lexeme = substring start (String.length lexeme) input
  /\ all_chars numeric lexeme = true
  /\ (start + String.length lexeme < String.length input ->
      numeric (currentChar input (start + String.length lexeme)) = false).

Fixpoint points (s : string) : nat :=
  match s with
  | String c s' => (if Ascii.eqb c "." then 1 else 0) + points s'
  | "" => 0
  end.

(** [subject] is the longest prefix of [lexeme] that is a literal, for
    a lexeme of digits and points: it holds at most one point, and what
    it leaves out, [ignored], starts with the second point. *)
Definition longest_literal (lexeme subject ignored : string) : Prop :=
  lexeme = subject +:+ ignored
  /\ points subject <= 1
  /\ (ignored = ""
      \/ (points subject = 1 /\ exists rest, ignored = String "." rest)).



(** ** The call stack *)

(** The opening parentheses of a text, and those of [input] from
    [index] on. *)
Fixpoint opens (s : string) : nat :=
  match s with
  | String c s' => (if Ascii.eqb c "(" then 1 else 0) + opens s'
  | "" => 0
  end.

Fixpoint opens_from (input : string) (index : nat) : nat :=
  match input, index with
  | "", _ => 0
  | String _ _, O => opens input
  | String _ rest, S index' => opens_from rest index'
  end.

(** ** <cctype> *)

(** A character that [isspace] and [isdigit] are defined on whatever
    the sign of [char]: the source passes them a plain [char], and a
    negative argument other than [EOF] is undefined. *)
Definition seven_bit (c : ascii) : bool := (nat_of_ascii c <? 128)%nat.

(** * Properties of the evaluator *)

(** ** The monad *)

Lemma bind_Returns {A B} (m : M A) (k : A -> M B) env a env' :
  m env = Returns a env' -> bind m k env = k a env'.
Proof. unfold bind. intros ->. reflexivity. Qed.

Lemma bind_Throws {A B} (m : M A) (k : A -> M B) env e env' :
  m env = Throws e env' -> bind m k env = Throws e env'.
Proof. unfold bind. intros ->. reflexivity. Qed.

Lemma bind_Undefined {A B} (m : M A) (k : A -> M B) env :
  m env = Undefined -> bind m k env = Undefined.
Proof. unfold bind. intros ->. reflexivity. Qed.

(** ** Operands *)

Lemma operand_values_cons arg args env v vs env' :
  operand_values (arg :: args) env = Returns (v :: vs) env' ->
  exists env1,
    number_value eval arg env = Returns v env1
    /\ operand_values args env1 = Returns vs env'.
Proof.
  cbn [operand_values]. unfold bind at 1.
  destruct (number_value eval arg env) as [v1 env1| |]; [|discriminate..].
  unfold bind. destruct (operand_values args env1) as [vs1 env2| |] eqn:Hvs;
    [|discriminate..].
  unfold ret. intros [= -> -> ->]. eauto.
Qed.

Lemma reduce_operand_values op args : forall result env vs env',
  operand_values args env = Returns vs env' ->
  reduce eval op args result env = Returns (fold_left op vs result) env'.
Proof.
  induction args as [|arg args IH]; intros result env vs env' H.
  - cbn in H. injection H as <- <-. reflexivity.
  - destruct vs as [|v vs].
    + cbn [operand_values] in H. unfold bind in H.
      destruct (number_value eval arg env) as [v1 env1| |]; [|discriminate..].
      destruct (operand_values args env1); discriminate.
    + apply operand_values_cons in H as (env1 & Hv & Hvs).
      cbn [reduce]. rewrite (bind_Returns _ _ _ _ _ Hv).
      cbn [fold_left]. apply IH, Hvs.
Qed.

Lemma eval_list_minus args env :
  eval (Some (lisp_list (Some (lisp_symbol "-") :: args))) env
  = evalSubtract eval args env.
Proof. reflexivity. Qed.

Lemma eval_list_plus args env :
  eval (Some (lisp_list (Some (lisp_symbol "+") :: args))) env
  = evalAdd eval args env.
Proof. reflexivity. Qed.

Lemma eval_list_times args env :
  eval (Some (lisp_list (Some (lisp_symbol "*") :: args))) env
  = evalMultiply eval args env.
Proof. reflexivity. Qed.

Lemma eval_list_divide args env :
  eval (Some (lisp_list (Some (lisp_symbol "/") :: args))) env
  = evalDivide eval args env.
Proof. reflexivity. Qed.

Lemma number_value_Returns arg env v env' :
  eval arg env = Returns (Some (lisp_number v)) env' ->
  number_value eval arg env = Returns v env'.
Proof. intros H. unfold number_value. rewrite (bind_Returns _ _ _ _ _ H). reflexivity. Qed.

(** C1. Subtraction is the left fold from the first operand: a form
    [(- a)] whose operand evaluates to a number yields that number, not
    its negation, and a form [(- a0 a1 ... an)] whose operands evaluate
    to [v0, v1, ..., vn] yields [((v0 - v1) - ...) - vn]; so [(- 7)] is
    7 and [(- 10 3 2)] is 5. *)
Theorem subtract_left_fold :
  (forall arg env v env',
      eval arg env = Returns (Some (lisp_number v)) env' ->
      eval (Some (lisp_list [Some (lisp_symbol "-"); arg])) env
      = Returns (Some (lisp_number v)) env')
  /\ (forall arg0 rest env v0 vs env',
         operand_values (arg0 :: rest) env = Returns (v0 :: vs) env' ->
         eval (Some (lisp_list (Some (lisp_symbol "-") :: arg0 :: rest))) env
         = Returns (Some (lisp_number (fold_left PrimFloat.sub vs v0))) env')
  /\ evaluate_parsed "(- 7)"
     = Some (Returns (Some (lisp_number 7%float)) interpreter_init)
  /\ evaluate_parsed "(- 10 3 2)"
     = Some (Returns (Some (lisp_number 5%float)) interpreter_init).
Proof.
  split; [|split; [|split]].
  - intros arg env v env' H. rewrite eval_list_minus. cbn [evalSubtract].
    rewrite (bind_Returns _ _ _ _ _ (number_value_Returns _ _ _ _ H)).
    reflexivity.
  - intros arg0 rest env v0 vs env' H. rewrite eval_list_minus.
    apply operand_values_cons in H as (env1 & Hv & Hvs).
    cbn [evalSubtract]. rewrite (bind_Returns _ _ _ _ _ Hv).
    rewrite (bind_Returns _ _ _ _ _ (reduce_operand_values _ _ _ _ _ _ Hvs)).
    reflexivity.
  - vm_compute. reflexivity.
  - vm_compute. reflexivity.
Qed.

Lemma subtract_left_fold_witness :
  eval (Some (lisp_list [Some (lisp_symbol "-"); Some (lisp_number 7%float)]))
    interpreter_init
  = Returns (Some (lisp_number 7%float)) interpreter_init.
Proof. apply (proj1 subtract_left_fold). reflexivity. Defined.

(** ** Division *)

(** IEEE-754: a quotient by a zero, of either sign, is an infinity or
    a NaN... *)
Lemma div_zero_not_finite (x d : double) : is_zero d -> not_finite (PrimFloat.div x d).
Proof.
  unfold is_zero, not_finite. intros Hd. rewrite FloatAxioms.eqb_spec in Hd.
  rewrite <- (SF2Prim_Prim2SF (PrimFloat.div x d)), div_spec.
  change (Prim2SF PrimFloat.zero) with (S754_zero false) in Hd.
  unfold SF64div.
  destruct (Prim2SF d) as [sd|sd| |sd md ed];
    try (cbv in Hd; try destruct sd; discriminate Hd).
  destruct (Prim2SF x) as [sx|sx| |sx mx ex]; cbn [SFdiv];
    try (right; right; reflexivity);
    destruct (xorb _ _); (left; reflexivity) || (right; left; reflexivity).
Qed.

(** ... and so is every quotient of an infinity or a NaN. *)
Lemma div_not_finite (x y : double) : not_finite x -> not_finite (PrimFloat.div x y).
Proof.
  unfold not_finite. intros Hx.
  rewrite <- (SF2Prim_Prim2SF (PrimFloat.div x y)), div_spec. unfold SF64div.
  destruct Hx as [->|[->| ->]].
  - change (Prim2SF PrimFloat.infinity) with (S754_infinity false).
    destruct (Prim2SF y) as [sy|sy| |sy my ey]; cbn [SFdiv];
      try (right; right; reflexivity);
      destruct sy; (left; reflexivity) || (right; left; reflexivity).
  - change (Prim2SF PrimFloat.neg_infinity) with (S754_infinity true).
    destruct (Prim2SF y) as [sy|sy| |sy my ey]; cbn [SFdiv];
      try (right; right; reflexivity);
      destruct sy; (left; reflexivity) || (right; left; reflexivity).
  - change (Prim2SF PrimFloat.nan) with S754_nan.
    right; right. destruct (Prim2SF y); reflexivity.
Qed.

Lemma fold_div_not_finite vs : forall v0,
  not_finite v0 -> not_finite (fold_left PrimFloat.div vs v0).
Proof.
  induction vs as [|v vs IH]; intros v0 H; [exact H|].
  cbn [fold_left]. apply IH, div_not_finite, H.
Qed.

Lemma fold_div_zero vs : forall v0,
  Exists is_zero vs -> not_finite (fold_left PrimFloat.div vs v0).
Proof.
  induction vs as [|v vs IH]; intros v0 H; [inversion H|].
  cbn [fold_left]. apply Exists_cons in H as [Hzero|Hlater].
  - apply fold_div_not_finite, div_zero_not_finite, Hzero.
  - apply IH, Hlater.
Qed.

(** C2, as stated, fails: [(/ 8 0)] evaluates to the number
    [+infinity], no exception is thrown. *)
Lemma divide_by_zero_returns_infinity :
  evaluate_parsed "(/ 8 0)"
  = Some (Returns (Some (lisp_number PrimFloat.infinity)) interpreter_init)
  /\ ~ division_by_zero_fails.
Proof.
  split; [vm_compute; reflexivity|].
  intros H.
  destruct (H (Some (lisp_number 8%float)) [Some (lisp_number 0%float)]
              interpreter_init 8%float [0%float] interpreter_init)
    as (e & env'' & Hthrow).
  - reflexivity.
  - constructor. reflexivity.
  - discriminate Hthrow.
Qed.

(** C2, amended.  A division form whose operands all evaluate to
    numbers returns a number, the left fold of IEEE-754 division from
    the first operand.  The divisors are not checked: when one of them
    is a zero no error is raised, and the number returned is an
    infinity or a NaN. *)
Theorem divide_left_fold arg0 rest env v0 vs env' :
  operand_values (arg0 :: rest) env = Returns (v0 :: vs) env' ->
  eval (Some (lisp_list (Some (lisp_symbol "/") :: arg0 :: rest))) env
  = Returns (Some (lisp_number (fold_left PrimFloat.div vs v0))) env'
  /\ (Exists is_zero vs -> not_finite (fold_left PrimFloat.div vs v0)).
Proof.
  intros H. split; [|apply fold_div_zero].
  rewrite eval_list_divide.
  apply operand_values_cons in H as (env1 & Hv & Hvs).
  cbn [evalDivide]. rewrite (bind_Returns _ _ _ _ _ Hv).
  rewrite (bind_Returns _ _ _ _ _ (reduce_operand_values _ _ _ _ _ _ Hvs)).
  reflexivity.
Qed.

Lemma divide_left_fold_witness :
  eval (Some (lisp_list [Some (lisp_symbol "/"); Some (lisp_number 8%float);
                         Some (lisp_number 0%float)])) interpreter_init
  = Returns (Some (lisp_number PrimFloat.infinity)) interpreter_init.
Proof.
  apply (divide_left_fold (Some (lisp_number 8%float)) [Some (lisp_number 0%float)]
           interpreter_init 8%float [0%float] interpreter_init).
  reflexivity.
Defined.

(** ** Symbols and the table *)

(** [eval] of a symbol is the table lookup, which returns the bound
    pointer or, for an absent name, inserts a null pointer and returns
    it. *)
Lemma eval_symbol name env :
  eval (Some (lisp_symbol name)) env
  = match env !! name with
    | Some p => Returns p env
    | None => Returns None (<[name := None]> env)
    end.
Proof. reflexivity. Qed.

Lemma interpreter_init_lookup name :
  interpreter_init !! name
  = if bool_decide (name ∈ operator_names) then Some (Some (lisp_symbol name))
    else None.
Proof.
  unfold interpreter_init, operator_names.
  case_bool_decide as Hin.
  - repeat (apply elem_of_cons in Hin as [->|Hin]; [reflexivity|]).
    inversion Hin.
  - rewrite !lookup_insert_ne; [apply lookup_empty|..];
      intros <-; apply Hin; set_solver.
Qed.

(** C3, as stated, fails: the symbol [foo] evaluates, without an error,
    to the null pointer. *)
Lemma unbound_symbol_returns_null :
  (exists env', eval (Some (lisp_symbol "foo")) interpreter_init = Returns None env')
  /\ ~ unbound_symbol_fails.
Proof.
  split; [eexists; reflexivity|].
  intros H. destruct (H "foo") as (e & env' & Hthrow).
  - apply (bool_decide_unpack _). vm_compute. exact I.
  - discriminate Hthrow.
Qed.

(** C3, amended.  Evaluating a symbol whose name is not one of the four
    operator names raises no error, in any table the interpreter can
    hold: it returns the null pointer, the value of the entry under
    that name, which the lookup adds when it is not there yet. *)
Theorem unbound_symbol_null env name :
  registry_state env ->
  name ∉ operator_names ->
  eval (Some (lisp_symbol name)) env = Returns None (<[name := None]> env)
  /\ registry_state (<[name := None]> env).
Proof.
  intros Hstate Hname.
  assert (Hinit : interpreter_init !! name = None).
  { rewrite interpreter_init_lookup, bool_decide_eq_false_2 by exact Hname.
    reflexivity. }
  split.
  - rewrite eval_symbol.
    destruct (Hstate name) as [E|[_ E]]; rewrite E; [rewrite Hinit; reflexivity|].
    rewrite insert_id by exact E. reflexivity.
  - intros name'. destruct (decide (name = name')) as [<-|Hne].
    + right. rewrite lookup_insert_eq. split; [exact Hinit|reflexivity].
    + rewrite lookup_insert_ne by exact Hne. apply Hstate.
Qed.

Lemma unbound_symbol_null_witness :
  eval (Some (lisp_symbol "foo")) interpreter_init
  = Returns None (<["foo" := None]> interpreter_init).
Proof.
  apply (unbound_symbol_null interpreter_init "foo").
  - intros name. left. reflexivity.
  - apply (bool_decide_unpack _). vm_compute. exact I.
Defined.

(** C10.  In every table the interpreter can hold, each of the four
    operator names is bound to a symbol of that name, the entry the
    constructor made: evaluating the bare symbol returns that symbol,
    not a number, and leaves the table as it is.  Read as an operand,
    the result fails the cast to [lisp_number], so a form with a bare
    operator symbol as its first operand has no defined value. *)
Theorem operator_symbol_self env name :
  registry_state env ->
  name ∈ operator_names ->
  eval (Some (lisp_symbol name)) env = Returns (Some (lisp_symbol name)) env
  /\ number_value eval (Some (lisp_symbol name)) env = Undefined
  /\ forall op rest, op ∈ operator_names ->
       eval (Some (lisp_list (Some (lisp_symbol op) :: Some (lisp_symbol name) :: rest)))
         env
       = Undefined.
Proof.
  intros Hstate Hname.
  assert (Hinit : interpreter_init !! name = Some (Some (lisp_symbol name))).
  { rewrite interpreter_init_lookup, bool_decide_eq_true_2 by exact Hname.
    reflexivity. }
  assert (Heval : eval (Some (lisp_symbol name)) env
                  = Returns (Some (lisp_symbol name)) env).
  { rewrite eval_symbol. destruct (Hstate name) as [E|[E _]]; [|congruence].
    rewrite E, Hinit. reflexivity. }
  assert (Hnum : number_value eval (Some (lisp_symbol name)) env = Undefined).
  { unfold number_value. rewrite (bind_Returns _ _ _ _ _ Heval). reflexivity. }
  split; [exact Heval|]. split; [exact Hnum|].
  intros op rest Hop. unfold operator_names in Hop.
  repeat (apply elem_of_cons in Hop as [->|Hop]);
    [| | | |inversion Hop];
    rewrite ?eval_list_plus, ?eval_list_minus, ?eval_list_times, ?eval_list_divide;
    unfold evalAdd, evalSubtract, evalMultiply, evalDivide; cbn [reduce];
    repeat (rewrite bind_Undefined; [reflexivity|]); exact Hnum.
Qed.

Lemma operator_symbol_self_witness :
  eval (Some (lisp_symbol "+")) interpreter_init
  = Returns (Some (lisp_symbol "+")) interpreter_init.
Proof.
  apply (operator_symbol_self interpreter_init "+").
  - intros name. left. reflexivity.
  - apply (bool_decide_unpack _). vm_compute. exact I.
Defined.

(** C8.  The parse of [()] is the empty list, and evaluating an empty
    list returns the null pointer, the "no value" result, on any table
    and without an exception. *)
Theorem empty_list_no_value :
  parser_parse strtod_nearest "()" = Some (Returns (Some (lisp_list [])) 2)
  /\ (forall env, eval (Some (lisp_list [])) env = Returns None env)
  /\ evaluate_parsed "()" = Some (Returns None interpreter_init).
Proof.
  split; [vm_compute; reflexivity|]. split; [|vm_compute; reflexivity].
  intros env. reflexivity.
Qed.

(** C4, on the code.  The sum of no operands is 0 and the product of
    no operands is 1.  For the difference and the quotient of no
    operands the reduction reads [args[0]] of an empty vector: the
    behaviour is undefined, no [ArityError] or other exception is
    thrown. *)
Theorem zero_operand_forms :
  evaluate_parsed "(+)" = Some (Returns (Some (lisp_number 0%float)) interpreter_init)
  /\ evaluate_parsed "(*)" = Some (Returns (Some (lisp_number 1%float)) interpreter_init)
  /\ evaluate_parsed "(-)" = Some Undefined
  /\ evaluate_parsed "(/)" = Some Undefined
  /\ (forall env, evalSubtract eval [] env = Undefined)
  /\ (forall env, evalDivide eval [] env = Undefined).
Proof. repeat split; vm_compute; reflexivity. Qed.

(** ** The table across an evaluation *)

Lemma lisp_object_nested_ind (P : lisp_object -> Prop) :
  (forall value, P (lisp_number value)) ->
  (forall name, P (lisp_symbol name)) ->
  (forall elements, Forall (pointee_holds P) elements -> P (lisp_list elements)) ->
  forall o, P o.
Proof.
  intros Hnumber Hsymbol Hlist.
  fix IH 1. intros [value|name|elements].
  - apply Hnumber.
  - apply Hsymbol.
  - apply Hlist. induction elements as [|[o|] elements IHelements].
    + constructor.
    + constructor; [apply IH|exact IHelements].
    + constructor; [exact I|exact IHelements].
Qed.

Lemma nulls_added_refl names env : nulls_added names env env.
Proof. intros name. left. reflexivity. Qed.

Lemma nulls_added_trans names env1 env2 env3 :
  nulls_added names env1 env2 -> nulls_added names env2 env3 ->
  nulls_added names env1 env3.
Proof.
  intros H12 H23 name.
  destruct (H12 name) as [E12|(N1 & N2 & Hin)], (H23 name) as [E23|(M2 & M3 & Hin')].
  - left. congruence.
  - right. repeat split; congruence || assumption.
  - right. repeat split; congruence || assumption.
  - congruence.
Qed.

Lemma nulls_added_weaken names names' env env' :
  names ⊆ names' -> nulls_added names env env' -> nulls_added names' env env'.
Proof.
  intros Hsub H name. destruct (H name) as [E|(N1 & N2 & Hin)]; [left|right]; auto.
Qed.

Lemma frame_weaken {A} names names' (m : M A) :
  names ⊆ names' -> frame names m -> frame names' m.
Proof. intros Hsub H env env' Hf. eapply nulls_added_weaken; eauto. Qed.

Lemma frame_ret {A} names (a : A) : frame names (ret a).
Proof. intros env env' [= <-]. apply nulls_added_refl. Qed.

Lemma frame_throw {A} names e : frame names (@throw A e).
Proof. intros env env' [= <-]. apply nulls_added_refl. Qed.

Lemma frame_undefined {A} names : frame names (@undefined A).
Proof. intros env env' [=]. Qed.

Lemma frame_bind {A B} names (m : M A) (k : A -> M B) :
  frame names m -> (forall a, frame names (k a)) -> frame names (bind m k).
Proof.
  intros Hm Hk env env'. unfold bind.
  destruct (m env) as [a env1|e env1|] eqn:Em; cbn.
  - intros Hf. eapply nulls_added_trans; [apply Hm; rewrite Em; reflexivity|].
    eapply Hk, Hf.
  - intros [= <-]. apply Hm. rewrite Em. reflexivity.
  - discriminate.
Qed.

Lemma frame_globalEnv_index name : frame [name] (globalEnv_index name).
Proof.
  intros env env'. unfold globalEnv_index.
  destruct (env !! name) as [p|] eqn:E; cbn; intros [= <-].
  - apply nulls_added_refl.
  - intros name'. destruct (decide (name = name')) as [<-|Hne].
    + right. rewrite lookup_insert_eq. repeat split; [exact E|set_solver].
    + left. apply lookup_insert_ne, Hne.
Qed.

Section frame_reductions.

Variable ev : lisp_object_ptr -> M lisp_object_ptr.
Variable names : list string.

Lemma frame_number_value arg :
  frame names (ev arg) -> frame names (number_value ev arg).
Proof.
  intros H. apply frame_bind; [exact H|].
  intros [[value|name|elements]|];
    apply frame_ret || apply frame_undefined.
Qed.

Lemma frame_reduce op args :
  Forall (fun arg => frame names (ev arg)) args ->
  forall result, frame names (reduce ev op args result).
Proof.
  induction 1 as [|arg args Harg _ IH]; intros result; cbn [reduce].
  - apply frame_ret.
  - apply frame_bind; [apply frame_number_value, Harg|].
    intros value. apply IH.
Qed.

Lemma frame_evalAdd args :
  Forall (fun arg => frame names (ev arg)) args -> frame names (evalAdd ev args).
Proof.
  intros H. apply frame_bind; [apply frame_reduce, H|].
  intros sum. apply frame_ret.
Qed.

Lemma frame_evalMultiply args :
  Forall (fun arg => frame names (ev arg)) args ->
  frame names (evalMultiply ev args).
Proof.
  intros H. apply frame_bind; [apply frame_reduce, H|].
  intros product. apply frame_ret.
Qed.

Lemma frame_evalSubtract args :
  Forall (fun arg => frame names (ev arg)) args ->
  frame names (evalSubtract ev args).
Proof.
  intros [|arg0 rest H0 Hrest]; [apply frame_undefined|].
  cbn [evalSubtract].
  apply frame_bind; [apply frame_number_value, H0|]. intros result.
  apply frame_bind; [apply frame_reduce, Hrest|]. intros result'.
  apply frame_ret.
Qed.

Lemma frame_evalDivide args :
  Forall (fun arg => frame names (ev arg)) args ->
  frame names (evalDivide ev args).
Proof.
  intros [|arg0 rest H0 Hrest]; [apply frame_undefined|].
  cbn [evalDivide].
  apply frame_bind; [apply frame_number_value, H0|]. intros result.
  apply frame_bind; [apply frame_reduce, Hrest|]. intros result'.
  apply frame_ret.
Qed.

End frame_reductions.

Lemma eval_object_list_cons operatorSymbol args :
  eval_object (lisp_list (operatorSymbol :: args))
  = match operatorSymbol with
    | Some (lisp_symbol name) =>
        if String.eqb name "+" then evalAdd eval args
        else if String.eqb name "-" then evalSubtract eval args
        else if String.eqb name "*" then evalMultiply eval args
        else if String.eqb name "/" then evalDivide eval args
        else throw (UnknownOperator name)
    | _ => undefined
    end.
Proof. reflexivity. Qed.

Lemma frame_eval_object expr : frame (value_symbols expr) (eval_object expr).
Proof.
  induction expr as [value|name|elements IH] using lisp_object_nested_ind.
  - apply frame_ret.
  - apply frame_globalEnv_index.
  - destruct elements as [|operatorSymbol args]; [apply frame_ret|].
    apply Forall_cons in IH as [_ IH].
    set (names := value_symbols (lisp_list (operatorSymbol :: args))).
    assert (Hargs : Forall (fun arg => frame names (eval arg)) args).
    { apply Forall_forall. intros [o|] Hin; [|apply frame_throw].
      rewrite Forall_forall in IH.
      eapply frame_weaken; [|apply (IH (Some o) Hin)].
      intros name Hname. subst names. cbn [value_symbols].
      apply list_elem_of_In, in_flat_map. exists (Some o).
      split; apply list_elem_of_In; assumption. }
    rewrite eval_object_list_cons.
    destruct operatorSymbol as [[value|name|elements]|];
      try apply frame_undefined.
    destruct (String.eqb name "+"); [apply frame_evalAdd, Hargs|].
    destruct (String.eqb name "-"); [apply frame_evalSubtract, Hargs|].
    destruct (String.eqb name "*"); [apply frame_evalMultiply, Hargs|].
    destruct (String.eqb name "/"); [apply frame_evalDivide, Hargs|].
    apply frame_throw.
Qed.

Lemma frame_eval expr : frame (pointer_value_symbols expr) (eval expr).
Proof. destruct expr as [o|]; [apply frame_eval_object|apply frame_throw]. Qed.

(** What a call does depends on the table through its lookups only, so
    null entries make no difference to it. *)
Lemma determined_ret {A} (a : A) : lookup_determined (ret a).
Proof. intros env1 env2 H. split; [reflexivity|exact H]. Qed.

Lemma determined_throw {A} e : lookup_determined (@throw A e).
Proof. intros env1 env2 H. split; [reflexivity|exact H]. Qed.

Lemma determined_undefined {A} : lookup_determined (@undefined A).
Proof. intros env1 env2 H. exact I. Qed.

Lemma determined_bind {A B} (m : M A) (k : A -> M B) :
  lookup_determined m -> (forall a, lookup_determined (k a)) ->
  lookup_determined (bind m k).
Proof.
  intros Hm Hk env1 env2 H. specialize (Hm env1 env2 H). unfold bind.
  destruct (m env1) as [a1 env1'|e1 env1'|], (m env2) as [a2 env2'|e2 env2'|];
    cbn in Hm; try contradiction; try exact Hm.
  destruct Hm as [<- Hagree]. apply Hk, Hagree.
Qed.

Lemma determined_globalEnv_index name : lookup_determined (globalEnv_index name).
Proof.
  intros env1 env2 H. unfold globalEnv_index.
  pose proof (H name) as Hname.
  assert (Hinsert : forall env : gmap string lisp_object_ptr,
             env !! name = None -> lookup_agree env (<[name := None]> env)).
  { intros env Hnone name'. destruct (decide (name = name')) as [<-|Hne].
    - rewrite lookup_insert_eq, Hnone. reflexivity.
    - rewrite lookup_insert_ne by exact Hne. reflexivity. }
  destruct (env1 !! name) as [p1|] eqn:E1, (env2 !! name) as [p2|] eqn:E2;
    cbn in Hname; (split; [congruence|]); intros name'.
  - apply H.
  - rewrite <- (Hinsert env2 E2 name'). apply H.
  - rewrite <- (Hinsert env1 E1 name'). apply H.
  - rewrite <- (Hinsert env1 E1 name'), <- (Hinsert env2 E2 name'). apply H.
Qed.

Section determined_reductions.

Variable ev : lisp_object_ptr -> M lisp_object_ptr.

Lemma determined_number_value arg :
  lookup_determined (ev arg) -> lookup_determined (number_value ev arg).
Proof.
  intros H. apply determined_bind; [exact H|].
  intros [[value|name|elements]|];
    apply determined_ret || apply determined_undefined.
Qed.

Lemma determined_reduce op args :
  Forall (fun arg => lookup_determined (ev arg)) args ->
  forall result, lookup_determined (reduce ev op args result).
Proof.
  induction 1 as [|arg args Harg _ IH]; intros result; cbn [reduce].
  - apply determined_ret.
  - apply determined_bind; [apply determined_number_value, Harg|].
    intros value. apply IH.
Qed.

Lemma determined_evalAdd args :
  Forall (fun arg => lookup_determined (ev arg)) args ->
  lookup_determined (evalAdd ev args).
Proof.
  intros H. apply determined_bind; [apply determined_reduce, H|].
  intros sum. apply determined_ret.
Qed.

Lemma determined_evalMultiply args :
  Forall (fun arg => lookup_determined (ev arg)) args ->
  lookup_determined (evalMultiply ev args).
Proof.
  intros H. apply determined_bind; [apply determined_reduce, H|].
  intros product. apply determined_ret.
Qed.

Lemma determined_evalSubtract args :
  Forall (fun arg => lookup_determined (ev arg)) args ->
  lookup_determined (evalSubtract ev args).
Proof.
  intros [|arg0 rest H0 Hrest]; [apply determined_undefined|].
  cbn [evalSubtract].
  apply determined_bind; [apply determined_number_value, H0|]. intros result.
  apply determined_bind; [apply determined_reduce, Hrest|]. intros result'.
  apply determined_ret.
Qed.

Lemma determined_evalDivide args :
  Forall (fun arg => lookup_determined (ev arg)) args ->
  lookup_determined (evalDivide ev args).
Proof.
  intros [|arg0 rest H0 Hrest]; [apply determined_undefined|].
  cbn [evalDivide].
  apply determined_bind; [apply determined_number_value, H0|]. intros result.
  apply determined_bind; [apply determined_reduce, Hrest|]. intros result'.
  apply determined_ret.
Qed.

End determined_reductions.

Lemma determined_eval_object expr : lookup_determined (eval_object expr).
Proof.
  induction expr as [value|name|elements IH] using lisp_object_nested_ind.
  - apply determined_ret.
  - apply determined_globalEnv_index.
  - destruct elements as [|operatorSymbol args]; [apply determined_ret|].
    apply Forall_cons in IH as [_ IH].
    assert (Hargs : Forall (fun arg => lookup_determined (eval arg)) args).
    { eapply Forall_impl; [exact IH|].
      intros [o|] Ho; [exact Ho|apply determined_throw]. }
    rewrite eval_object_list_cons.
    destruct operatorSymbol as [[value|name|elements]|];
      try apply determined_undefined.
    destruct (String.eqb name "+"); [apply determined_evalAdd, Hargs|].
    destruct (String.eqb name "-"); [apply determined_evalSubtract, Hargs|].
    destruct (String.eqb name "*"); [apply determined_evalMultiply, Hargs|].
    destruct (String.eqb name "/"); [apply determined_evalDivide, Hargs|].
    apply determined_throw.
Qed.

Lemma determined_eval expr : lookup_determined (eval expr).
Proof. destruct expr as [o|]; [apply determined_eval_object|apply determined_throw]. Qed.

Lemma nulls_added_agree names env env' :
  nulls_added names env env' -> lookup_agree env env'.
Proof.
  intros H name. destruct (H name) as [->|(-> & -> & _)]; reflexivity.
Qed.

Lemma registry_state_init : registry_state interpreter_init.
Proof. intros name. left. reflexivity. Qed.

(** Evaluations keep the table in [registry_state]. *)
Lemma registry_state_eval expr env env' :
  registry_state env ->
  final_state (eval expr env) = Some env' ->
  registry_state env'.
Proof.
  intros Hstate Hfinal name.
  destruct (frame_eval expr env env' Hfinal name) as [E|(N & N' & _)].
  - rewrite E. apply Hstate.
  - right. split; [|exact N'].
    destruct (Hstate name) as [E|[E _]]; congruence.
Qed.

(** C9, as stated, fails: evaluating the symbol [foo] adds an entry
    for [foo], bound to the null pointer, to the table. *)
Lemma registry_gains_unbound_symbol :
  final_state (eval (Some (lisp_symbol "foo")) interpreter_init)
  = Some (<["foo" := None]> interpreter_init)
  /\ interpreter_init !! "foo" = None
  /\ ~ registry_unchanged.
Proof.
  split; [reflexivity|]. split; [reflexivity|].
  intros H.
  specialize (H (Some (lisp_symbol "foo")) _ eq_refl).
  apply (f_equal (fun env => env !! "foo")) in H.
  discriminate H.
Qed.

(** C9, amended.  An evaluation never removes an entry of the table and
    never changes the value of one: whatever the table held before, it
    holds after, so the four operator entries stay.  The only change is
    that a symbol evaluated in value position whose name is absent gets
    an entry bound to the null pointer; an expression all of whose
    symbols in value position are bound leaves the table unchanged.
    The added entries are not observable: every later evaluation ends
    as it would have ended on the table before. *)
Theorem registry_only_grows expr env env' :
  final_state (eval expr env) = Some env' ->
  env ⊆ env'
  /\ (forall name, env' !! name <> env !! name ->
        env !! name = None /\ env' !! name = Some None
        /\ name ∈ pointer_value_symbols expr)
  /\ ((forall name, name ∈ pointer_value_symbols expr -> is_Some (env !! name)) ->
      env' = env)
  /\ (forall later, same_outcome (eval later env) (eval later env')).
Proof.
  intros Hfinal. pose proof (frame_eval expr env env' Hfinal) as H.
  split; [|split; [|split]].
  - apply map_subseteq_spec. intros name p Hp.
    destruct (H name) as [E|(N & _ & _)]; congruence.
  - intros name Hne. destruct (H name) as [E|(N & N' & Hin)]; [contradiction|].
    auto.
  - intros Hbound. apply map_eq. intros name.
    destruct (H name) as [E|(N & _ & Hin)]; [exact E|].
    destruct (Hbound name Hin) as [p Hp]. congruence.
  - intros later. eapply determined_eval, nulls_added_agree, H.
Qed.

Lemma registry_only_grows_witness :
  interpreter_init ⊆ <["foo" := None]> interpreter_init.
Proof.
  apply (registry_only_grows (Some (lisp_symbol "foo")) interpreter_init
           (<["foo" := None]> interpreter_init)).
  reflexivity.
Defined.

(** * Properties of the reader *)

(** ** The buffer *)

Lemma get_Some_lt s : forall i c, String.get i s = Some c -> i < String.length s.
Proof.
  induction s as [|a s IH]; intros [|i] c H; cbn in *; try discriminate; try lia.
  apply IH in H. lia.
Qed.

Lemma get_None_ge s : forall i, String.get i s = None <-> String.length s <= i.
Proof.
  induction s as [|a s IH]; intros [|i]; cbn; split; intros H;
    try reflexivity; try discriminate; try lia.
  - apply IH in H. lia.
  - apply IH. lia.
Qed.

Lemma append_cons a s1 s2 : String a s1 +:+ s2 = String a (s1 +:+ s2).
Proof. reflexivity. Qed.

Lemma length_append s1 s2 :
  String.length (s1 +:+ s2) = String.length s1 + String.length s2.
Proof.
  induction s1 as [|a s1 IH]; [reflexivity|].
  rewrite append_cons. cbn. f_equal. exact IH.
Qed.

Lemma currentChar_append input rest i :
  i < String.length input -> currentChar (input +:+ rest) i = currentChar input i.
Proof. intros H. unfold currentChar. rewrite <- append_correct1 by exact H. reflexivity. Qed.

Lemma currentChar_end input i :
  String.length input <= i -> currentChar input i = "000"%char.
Proof. intros H. unfold currentChar. apply get_None_ge in H. rewrite H. reflexivity. Qed.

Lemma currentChar_get input i c :
  currentChar input i = c -> c <> "000"%char -> String.get i input = Some c.
Proof.
  unfold currentChar. destruct (String.get i input) as [c'|]; intros <- H;
    [reflexivity|contradiction].
Qed.

(** ** Runs of characters *)

Lemma append_assoc (s1 s2 s3 : string) : (s1 +:+ s2) +:+ s3 = s1 +:+ (s2 +:+ s3).
Proof.
  induction s1 as [|a s1 IH]; [reflexivity|].
  rewrite !append_cons. f_equal. exact IH.
Qed.

Lemma append_empty_r (s : string) : s +:+ "" = s.
Proof.
  induction s as [|a s IH]; [reflexivity|].
  rewrite append_cons. f_equal. exact IH.
Qed.

Lemma skipWhitespace_loop_run n : forall input index,
  skipWhitespace_loop n input index = run_end isspace n input index.
Proof.
  induction n as [|n IH]; intros input index; cbn [skipWhitespace_loop run_end]; [reflexivity|].
  rewrite IH. reflexivity.
Qed.

Lemma number_loop_run n : forall input index number,
  number_loop n input index number
  = (number +:+ run_chars numeric n input index, run_end numeric n input index).
Proof.
  induction n as [|n IH]; intros input index number; cbn [number_loop run_end run_chars].
  - rewrite append_empty_r. reflexivity.
  - fold (numeric (currentChar input index)).
    destruct ((index <? String.length input)%nat && numeric (currentChar input index)).
    + rewrite IH, append_assoc. reflexivity.
    + rewrite append_empty_r. reflexivity.
Qed.

Lemma symbol_loop_run n : forall input index symbol,
  symbol_loop n input index symbol
  = (symbol +:+ run_chars symbolic n input index, run_end symbolic n input index).
Proof.
  induction n as [|n IH]; intros input index symbol; cbn [symbol_loop run_end run_chars].
  - rewrite append_empty_r. reflexivity.
  - rewrite <- andb_assoc. fold (symbolic (currentChar input index)).
    destruct ((index <? String.length input)%nat && symbolic (currentChar input index)).
    + rewrite IH, append_assoc. reflexivity.
    + rewrite append_empty_r. reflexivity.
Qed.

Section runs.

Variable keep : ascii -> bool.

Lemma run_end_ge n : forall input index, index <= run_end keep n input index.
Proof.
  induction n as [|n IH]; intros input index; cbn [run_end]; [lia|].
  destruct (_ && _); [|lia]. specialize (IH input (S index)). lia.
Qed.

Lemma run_end_le n : forall input index,
  index <= String.length input -> run_end keep n input index <= String.length input.
Proof.
  induction n as [|n IH]; intros input index H; cbn [run_end]; [lia|].
  destruct ((index <? String.length input)%nat) eqn:E; cbn; [|lia].
  apply Nat.ltb_lt in E. destruct (keep _); [|lia]. apply IH. lia.
Qed.

(** With [length - index] iterations the run is read to its end. *)
Lemma run_end_stop n : forall input index,
  String.length input - index <= n ->
  run_end keep n input index < String.length input ->
  keep (currentChar input (run_end keep n input index)) = false.
Proof.
  induction n as [|n IH]; intros input index Hn; cbn [run_end].
  - lia.
  - destruct ((index <? String.length input)%nat) eqn:E; cbn.
    + destruct (keep (currentChar input index)) eqn:K; [|intros _; exact K].
      apply IH. lia.
    + apply Nat.ltb_ge in E. lia.
Qed.

Lemma run_end_progress n input index :
  String.length input - index <= n ->
  index < String.length input ->
  keep (currentChar input index) = true ->
  index < run_end keep n input index.
Proof.
  intros Hn Hlt K. destruct n as [|n]; [lia|]. cbn [run_end].
  apply Nat.ltb_lt in Hlt. rewrite Hlt, K. cbn [andb].
  pose proof (run_end_ge n input (S index)). lia.
Qed.

Lemma run_stuck n input index :
  keep (currentChar input index) = false ->
  run_end keep n input index = index /\ run_chars keep n input index = "".
Proof.
  intros K. destruct n as [|n]; cbn [run_end run_chars]; [split; reflexivity|].
  rewrite K, andb_false_r. split; reflexivity.
Qed.

Lemma run_chars_keep n : forall input index c,
  In c (list_ascii_of_string (run_chars keep n input index)) -> keep c = true.
Proof.
  induction n as [|n IH]; intros input index c; cbn [run_chars]; [intros []|].
  destruct ((index <? String.length input)%nat); cbn; [|intros []].
  destruct (keep (currentChar input index)) eqn:K; cbn; [|intros []].
  intros [<-|H]; [exact K|]. eapply IH, H.
Qed.

(** A run that ends inside [input] is the same run in every extension
    of [input]. *)
Lemma run_append n : forall m input rest index,
  String.length input - index <= n ->
  String.length (input +:+ rest) - index <= m ->
  run_end keep n input index < String.length input ->
  run_end keep m (input +:+ rest) index = run_end keep n input index
  /\ run_chars keep m (input +:+ rest) index = run_chars keep n input index.
Proof.
  induction n as [|n IH]; intros m input rest index Hn Hm; cbn [run_end run_chars].
  - lia.
  - destruct ((index <? String.length input)%nat) eqn:E; cbn.
    + apply Nat.ltb_lt in E.
      pose proof (length_append input rest) as Hlen.
      destruct m as [|m]; [lia|]. cbn [run_end run_chars].
      assert (E' : (index <? String.length (input +:+ rest))%nat = true)
        by (apply Nat.ltb_lt; lia).
      rewrite E', (currentChar_append _ _ _ E). cbn [andb].
      destruct (keep (currentChar input index)); [|intros _; split; reflexivity].
      intros Hend. destruct (IH m input rest (S index)) as [-> ->];
        [lia|lia|exact Hend|]. split; reflexivity.
    + apply Nat.ltb_ge in E. lia.
Qed.

End runs.

(** The text of a run is the part of the buffer it spans. *)

Lemma substring_zero s : forall i, substring i 0 s = "".
Proof. induction s as [|c s IH]; intros [|i]; cbn; auto. Qed.

Lemma substring_cons s : forall i k c,
  String.get i s = Some c ->
  substring i (S k) s = String c (substring (S i) k s).
Proof.
  induction s as [|a s IH]; intros [|i] k c H; cbn in H; try discriminate.
  - injection H as <-. cbn. destruct k, s; reflexivity.
  - cbn [substring]. rewrite (IH i k c H). reflexivity.
Qed.

Lemma run_chars_length keep n : forall input i,
  String.length (run_chars keep n input i) = run_end keep n input i - i.
Proof.
  induction n as [|n IH]; intros input i; cbn [run_end run_chars]; [cbn; lia|].
  destruct ((i <? String.length input)%nat && keep (currentChar input i));
    [|cbn; lia].
  cbn [String.length]. rewrite IH.
  pose proof (run_end_ge keep n input (S i)). lia.
Qed.

Lemma run_chars_substring keep n : forall input i,
  run_chars keep n input i = substring i (run_end keep n input i - i) input.
Proof.
  induction n as [|n IH]; intros input i; cbn [run_end run_chars].
  - rewrite Nat.sub_diag, substring_zero. reflexivity.
  - destruct ((i <? String.length input)%nat) eqn:Hin; cbn [andb];
      [|rewrite Nat.sub_diag, substring_zero; reflexivity].
    destruct (keep (currentChar input i));
      [|rewrite Nat.sub_diag, substring_zero; reflexivity].
    pose proof (run_end_ge keep n input (S i)) as Hge.
    replace (run_end keep n input (S i) - i)
      with (S (run_end keep n input (S i) - S i)) by lia.
    apply Nat.ltb_lt in Hin.
    assert (Hget : String.get i input = Some (currentChar input i)).
    { unfold currentChar. destruct (String.get i input) eqn:E; [reflexivity|].
      apply get_None_ge in E. lia. }
    rewrite (substring_cons _ _ _ _ Hget), <- IH. reflexivity.
Qed.

Lemma run_chars_all keep n : forall input i,
  all_chars keep (run_chars keep n input i) = true.
Proof.
  induction n as [|n IH]; intros input i; cbn [run_chars]; [reflexivity|].
  destruct ((i <? String.length input)%nat); cbn [andb]; [|reflexivity].
  destruct (keep (currentChar input i)) eqn:K; [|reflexivity].
  cbn [all_chars]. rewrite K, IH. reflexivity.
Qed.

(** ** The parser as a relation *)

Section reader_properties.

Variable strtod_decimal : string -> option double.

Lemma parse_S fuel input index :
  parse strtod_decimal (S fuel) input index
  = if (String.length input <=? skipWhitespace input index)%nat
    then Some (Throws UnexpectedEndOfInput (skipWhitespace input index))
    else if Ascii.eqb (currentChar input (skipWhitespace input index)) "("
    then parse_elements strtod_decimal fuel input (S (skipWhitespace input index)) []
    else if number_start input (skipWhitespace input index)
    then Some (parse_number strtod_decimal input (skipWhitespace input index))
    else Some (parse_symbol input (skipWhitespace input index)).
Proof. reflexivity. Qed.

Lemma parse_elements_S fuel input index elements :
  parse_elements strtod_decimal (S fuel) input index elements
  = if (String.length input <? index)%nat then Some Undefined
    else if negb (Ascii.eqb (currentChar input index) ")") then
      match parse strtod_decimal fuel input index with
      | Some (Returns e index') =>
          parse_elements strtod_decimal fuel input (skipWhitespace input index')
            (elements ++ [e])
      | r => r
      end
    else Some (Returns (Some (lisp_list elements)) (S index)).
Proof. reflexivity. Qed.

(** What the function computes, the relation derives. *)
Lemma parse_parses fuel :
  (forall input index r,
      parse strtod_decimal fuel input index = Some r -> parses strtod_decimal input index r)
  /\ (forall input index elements r,
         parse_elements strtod_decimal fuel input index elements = Some r ->
         parses_elements strtod_decimal input index elements r).
Proof.
  induction fuel as [|fuel [IHparse IHelements]]; [split; discriminate|].
  split.
  - intros input index r. rewrite parse_S.
    destruct (String.length input <=? skipWhitespace input index)%nat eqn:Hend.
    { intros [= <-]. apply parses_end, Nat.leb_le, Hend. }
    apply Nat.leb_gt in Hend.
    destruct (Ascii.eqb (currentChar input (skipWhitespace input index)) "(") eqn:Hopen.
    { intros H. apply parses_list; [exact Hend|apply Ascii.eqb_eq, Hopen|].
      apply IHelements, H. }
    apply Ascii.eqb_neq in Hopen.
    destruct (number_start input (skipWhitespace input index)) eqn:Hnum;
      intros [= <-]; [apply parses_number|apply parses_symbol]; assumption.
  - intros input index elements r. rewrite parse_elements_S.
    destruct (String.length input <? index)%nat eqn:Hpast.
    { intros [= <-]. apply elements_past, Nat.ltb_lt, Hpast. }
    apply Nat.ltb_ge in Hpast.
    destruct (Ascii.eqb (currentChar input index) ")") eqn:Hclose; cbn [negb].
    { intros [= <-]. apply elements_close; [exact Hpast|apply Ascii.eqb_eq, Hclose]. }
    apply Ascii.eqb_neq in Hclose.
    destruct (parse strtod_decimal fuel input index) as [[e index'|ex index'|]|] eqn:Hchild.
    + intros H. eapply elements_child; eauto.
    + intros [= <-]. eapply elements_throw; eauto.
    + intros [= <-]. eapply elements_undefined; eauto.
    + discriminate.
Qed.

(** What the relation derives is the only result the function can
    compute, whatever the fuel. *)
Lemma parses_parse input :
  (forall index r, parses strtod_decimal input index r ->
     forall fuel r', parse strtod_decimal fuel input index = Some r' -> r' = r)
  /\ (forall index elements r, parses_elements strtod_decimal input index elements r ->
        forall fuel r',
          parse_elements strtod_decimal fuel input index elements = Some r' -> r' = r).
Proof.
  apply parses_mutual.
  - intros index Hend [|fuel] r'; [discriminate|]. rewrite parse_S.
    apply Nat.leb_le in Hend. rewrite Hend. congruence.
  - intros index r Hend Hopen _ IH [|fuel] r'; [discriminate|]. rewrite parse_S.
    apply Nat.leb_gt in Hend. apply Ascii.eqb_eq in Hopen. rewrite Hend, Hopen.
    apply IH.
  - intros index Hend Hopen Hnum [|fuel] r'; [discriminate|]. rewrite parse_S.
    apply Nat.leb_gt in Hend. apply Ascii.eqb_neq in Hopen.
    rewrite Hend, Hopen, Hnum. congruence.
  - intros index Hend Hopen Hnum [|fuel] r'; [discriminate|]. rewrite parse_S.
    apply Nat.leb_gt in Hend. apply Ascii.eqb_neq in Hopen.
    rewrite Hend, Hopen, Hnum. congruence.
  - intros index elements Hpast [|fuel] r'; [discriminate|].
    rewrite parse_elements_S. apply Nat.ltb_lt in Hpast. rewrite Hpast. congruence.
  - intros index elements Hpast Hclose [|fuel] r'; [discriminate|].
    rewrite parse_elements_S. apply Nat.ltb_ge in Hpast. apply Ascii.eqb_eq in Hclose.
    rewrite Hpast, Hclose. cbn [negb]. congruence.
  - intros index elements e index' r Hpast Hclose _ IHchild _ IHrest [|fuel] r';
      [discriminate|].
    rewrite parse_elements_S. apply Nat.ltb_ge in Hpast. apply Ascii.eqb_neq in Hclose.
    rewrite Hpast, Hclose. cbn [negb].
    destruct (parse strtod_decimal fuel input index) as [r0|] eqn:Hchild; [|discriminate].
    rewrite (IHchild fuel r0 Hchild). apply IHrest.
  - intros index elements ex index' Hpast Hclose _ IHchild [|fuel] r'; [discriminate|].
    rewrite parse_elements_S. apply Nat.ltb_ge in Hpast. apply Ascii.eqb_neq in Hclose.
    rewrite Hpast, Hclose. cbn [negb].
    destruct (parse strtod_decimal fuel input index) as [r0|] eqn:Hchild; [|discriminate].
    rewrite (IHchild fuel r0 Hchild). congruence.
  - intros index elements Hpast Hclose _ IHchild [|fuel] r'; [discriminate|].
    rewrite parse_elements_S. apply Nat.ltb_ge in Hpast. apply Ascii.eqb_neq in Hclose.
    rewrite Hpast, Hclose. cbn [negb].
    destruct (parse strtod_decimal fuel input index) as [r0|] eqn:Hchild; [|discriminate].
    rewrite (IHchild fuel r0 Hchild). congruence.
Qed.

(** ** The cursor stays inside the buffer *)

Lemma skipWhitespace_run input index :
  skipWhitespace input index
  = run_end isspace (String.length input - index) input index.
Proof. apply skipWhitespace_loop_run. Qed.

Lemma skipWhitespace_ge input index : index <= skipWhitespace input index.
Proof. rewrite skipWhitespace_run. apply run_end_ge. Qed.

Lemma skipWhitespace_le input index :
  index <= String.length input -> skipWhitespace input index <= String.length input.
Proof. rewrite skipWhitespace_run. apply run_end_le. Qed.

Lemma skipWhitespace_stop input index :
  skipWhitespace input index < String.length input ->
  isspace (currentChar input (skipWhitespace input index)) = false.
Proof. rewrite skipWhitespace_run. apply run_end_stop. lia. Qed.

Lemma number_lexeme_run input index :
  number_lexeme input index
  = (run_chars numeric (String.length input - index) input index,
     run_end numeric (String.length input - index) input index).
Proof. unfold number_lexeme. rewrite number_loop_run. reflexivity. Qed.

Lemma symbol_lexeme_run input index :
  symbol_lexeme input index
  = (run_chars symbolic (String.length input - index) input index,
     run_end symbolic (String.length input - index) input index).
Proof. unfold symbol_lexeme. rewrite symbol_loop_run. reflexivity. Qed.

(** The lexeme of the number branch holds digits and points only. *)
Lemma number_lexeme_chars input index c :
  In c (list_ascii_of_string (fst (number_lexeme input index))) ->
  isdigit c = true \/ c = "."%char.
Proof.
  rewrite number_lexeme_run. cbn [fst]. intros H.
  apply run_chars_keep in H. unfold numeric in H.
  apply orb_true_iff in H as [H|H]; [left; exact H|right; apply Ascii.eqb_eq, H].
Qed.

(** Where the number branch is entered on [-], the lexeme is empty:
    the loop takes digits and points, and [-] is neither. *)
Lemma number_lexeme_sign input index :
  currentChar input index = "-"%char -> number_lexeme input index = ("", index).
Proof.
  intros Hc. rewrite number_lexeme_run.
  destruct (run_stuck numeric (String.length input - index) input index) as [-> ->];
    [rewrite Hc|]; reflexivity.
Qed.

Lemma parse_number_sign input index :
  currentChar input index = "-"%char ->
  parse_number strtod_decimal input index = Throws invalid_argument index.
Proof. intros Hc. unfold parse_number. rewrite (number_lexeme_sign _ _ Hc). reflexivity. Qed.

Lemma number_start_cases input index :
  number_start input index = true ->
  isdigit (currentChar input index) = true
  \/ (currentChar input index = "-"%char
      /\ index + 1 < String.length input
      /\ isdigit (currentChar input (index + 1)) = true).
Proof.
  unfold number_start. intros H.
  apply orb_true_iff in H as [H|H]; [left; exact H|right].
  apply andb_true_iff in H as [H H3]. apply andb_true_iff in H as [H1 H2].
  repeat split; [apply Ascii.eqb_eq, H1|apply Nat.ltb_lt, H2|exact H3].
Qed.

Lemma parses_within input :
  (forall index r, parses strtod_decimal input index r ->
     index <= String.length input ->
     ends_within input index (currentChar input index <> ")"%char) r)
  /\ (forall index elements r, parses_elements strtod_decimal input index elements r ->
        index <= String.length input ->
        ends_within input index True r).
Proof.
  apply parses_mutual.
  - intros index Hend Hin. cbn. apply skipWhitespace_le, Hin.
  - intros index r Hend Hopen _ IH Hin.
    pose proof (skipWhitespace_ge input index) as Hge.
    specialize (IH ltac:(lia)). destruct r as [a index'|e index'|]; cbn in *;
      [|exact IH|exact IH].
    destruct IH as (H1 & H2 & H3). specialize (H3 I). repeat split; lia.
  - intros index Hend Hopen Hnum Hin.
    pose proof (skipWhitespace_ge input index) as Hge.
    set (start := skipWhitespace input index) in *.
    pose proof (run_end_ge numeric (String.length input - start) input start) as Hge'.
    pose proof (run_end_le numeric (String.length input - start) input start
                  ltac:(lia)) as Hle'.
    apply number_start_cases in Hnum as [Hdigit|(Hsign & _)].
    + unfold parse_number. rewrite number_lexeme_run.
      pose proof (run_end_progress numeric (String.length input - start) input start
                    ltac:(lia) Hend ltac:(unfold numeric; rewrite Hdigit; reflexivity))
        as Hprogress.
      destruct (stod _ _) as [e|value]; cbn; repeat split; lia.
    + rewrite (parse_number_sign _ _ Hsign). cbn. lia.
  - intros index Hend Hopen Hnum Hin.
    pose proof (skipWhitespace_ge input index) as Hge.
    pose proof (skipWhitespace_stop input index Hend) as Hstop.
    set (start := skipWhitespace input index) in *.
    pose proof (run_end_ge symbolic (String.length input - start) input start) as Hge'.
    pose proof (run_end_le symbolic (String.length input - start) input start
                  ltac:(lia)) as Hle'.
    unfold parse_symbol. rewrite symbol_lexeme_run. cbn.
    repeat split; [lia|lia|]. intros Hclose.
    destruct (decide (start = index)) as [Heq|Hne]; [|lia].
    rewrite Heq in *.
    pose proof (run_end_progress symbolic (String.length input - index) input index
                  ltac:(lia) Hend) as Hprogress.
    apply Hprogress. unfold symbolic. rewrite Hstop.
    apply Ascii.eqb_neq in Hclose. rewrite Hclose. reflexivity.
  - intros index elements Hpast Hin. lia.
  - intros index elements _ Hclose Hin. cbn.
    assert (index < String.length input).
    { eapply get_Some_lt, currentChar_get; [exact Hclose|discriminate]. }
    repeat split; lia.
  - intros index elements e index' r _ Hclose _ IHchild _ IHrest Hin.
    specialize (IHchild Hin). cbn in IHchild. destruct IHchild as (H1 & H2 & H3).
    specialize (H3 Hclose).
    pose proof (skipWhitespace_ge input index') as Hge.
    specialize (IHrest (skipWhitespace_le _ _ H2)).
    destruct r as [a index''|ex index''|]; cbn in *; [|exact IHrest|exact IHrest].
    destruct IHrest as (H4 & H5 & H6). repeat split; lia.
  - intros index elements ex index' _ _ _ IHchild Hin. apply IHchild, Hin.
  - intros index elements _ _ _ IHchild Hin. apply IHchild, Hin.
Qed.

(** ** Termination: the fuel of [parser_parse] suffices *)

Lemma parse_fuel fuel :
  (forall input index,
      index <= String.length input ->
      2 * (String.length input - index) + 1 <= fuel ->
      exists r, parse strtod_decimal fuel input index = Some r)
  /\ (forall input index elements,
         index <= String.length input ->
         2 * (String.length input - index) + 2 <= fuel ->
         exists r, parse_elements strtod_decimal fuel input index elements = Some r).
Proof.
  induction fuel as [|fuel [IHparse IHelements]]; [split; intros; lia|].
  split.
  - intros input index Hin Hfuel. rewrite parse_S.
    pose proof (skipWhitespace_ge input index) as Hge.
    destruct (String.length input <=? skipWhitespace input index)%nat eqn:Hend;
      [eauto|].
    apply Nat.leb_gt in Hend.
    destruct (Ascii.eqb _ "("); [apply IHelements; lia|].
    destruct (number_start _ _); eauto.
  - intros input index elements Hin Hfuel. rewrite parse_elements_S.
    destruct (String.length input <? index)%nat; [eauto|].
    destruct (Ascii.eqb (currentChar input index) ")") eqn:Hclose; cbn [negb];
      [eauto|].
    apply Ascii.eqb_neq in Hclose.
    destruct (IHparse input index Hin ltac:(lia)) as [r Hr]. rewrite Hr.
    destruct r as [e index'|ex index'|]; [|eauto|eauto].
    apply (proj1 (parse_parses fuel)) in Hr.
    apply (proj1 (parses_within input)) in Hr; [|exact Hin].
    cbn in Hr. destruct Hr as (H1 & H2 & H3). specialize (H3 Hclose).
    pose proof (skipWhitespace_ge input index') as Hge.
    apply IHelements; [apply skipWhitespace_le, H2|lia].
Qed.

(** [parser(input).parse()] always ends, and ends the way the relation
    says. *)
Lemma parser_parse_parses input :
  exists r, parser_parse strtod_decimal input = Some r /\ parses strtod_decimal input 0 r.
Proof.
  unfold parser_parse.
  destruct (proj1 (parse_fuel (2 * String.length input + 1)) input 0) as [r Hr];
    [lia|lia|].
  exists r. split; [exact Hr|]. eapply parse_parses, Hr.
Qed.

Lemma parses_parser_parse input r :
  parses strtod_decimal input 0 r -> parser_parse strtod_decimal input = Some r.
Proof.
  intros H. destruct (parser_parse_parses input) as (r' & Hr' & _).
  rewrite Hr'. f_equal. eapply (proj1 (parses_parse input)); eassumption.
Qed.

(** ** The exceptions of the reader *)

Lemma stod_exception number e : stod strtod_decimal number = inl e ->
  e = invalid_argument \/ e = out_of_range.
Proof.
  unfold stod. destruct (subject_sequence number) as [subject|];
    [destruct (strtod_decimal subject)|]; intros [= <-]; auto.
Qed.

Lemma parses_throws input :
  (forall index r, parses strtod_decimal input index r ->
     forall e index', r = Throws e index' -> reader_exception e)
  /\ (forall index elements r, parses_elements strtod_decimal input index elements r ->
        forall e index', r = Throws e index' -> reader_exception e).
Proof.
  apply parses_mutual; try discriminate; try (intros; eauto; fail).
  - intros index _ e index' [= <- _]. left. reflexivity.
  - intros index _ _ _ e index'. unfold parse_number.
    destruct (number_lexeme _ _) as [number index''].
    destruct (stod _ number) as [e'|value] eqn:Hstod; intros [= <- _].
    right. eapply stod_exception, Hstod.
  - intros index _ _ _ e index'. unfold parse_symbol.
    destruct (symbol_lexeme _ _). discriminate.
Qed.

(** ** Lists close on a closing parenthesis *)

Lemma parses_elements_close input index elements r :
  parses_elements strtod_decimal input index elements r ->
  forall a index', r = Returns a index' ->
    String.get (index' - 1) input = Some ")"%char
    /\ exists elements', a = Some (lisp_list elements').
Proof.
  induction 1 as [| index elements Hin Hclose | | |]; try discriminate.
  - intros a index' [= <- <-]. replace (S index - 1) with index by lia.
    split; [|eauto]. apply currentChar_get; [exact Hclose|discriminate].
  - assumption.
Qed.

(** ** Extending the buffer *)

Lemma skipWhitespace_append input rest index :
  skipWhitespace input index < String.length input ->
  skipWhitespace (input +:+ rest) index = skipWhitespace input index.
Proof.
  rewrite !skipWhitespace_run. intros H.
  apply (run_append isspace); [lia|lia|exact H].
Qed.

Lemma number_lexeme_append input rest index :
  snd (number_lexeme input index) < String.length input ->
  number_lexeme (input +:+ rest) index = number_lexeme input index.
Proof.
  rewrite !number_lexeme_run. cbn [snd]. intros H.
  destruct (run_append numeric (String.length input - index)
              (String.length (input +:+ rest) - index) input rest index)
    as [-> ->]; [lia|lia|exact H|reflexivity].
Qed.

Lemma symbol_lexeme_append input rest index :
  snd (symbol_lexeme input index) < String.length input ->
  symbol_lexeme (input +:+ rest) index = symbol_lexeme input index.
Proof.
  rewrite !symbol_lexeme_run. cbn [snd]. intros H.
  destruct (run_append symbolic (String.length input - index)
              (String.length (input +:+ rest) - index) input rest index)
    as [-> ->]; [lia|lia|exact H|reflexivity].
Qed.

Lemma number_start_append input rest index :
  index < String.length input ->
  (currentChar input index = "-"%char -> index + 1 < String.length input) ->
  number_start (input +:+ rest) index = number_start input index.
Proof.
  intros Hin Hsign. unfold number_start.
  rewrite (currentChar_append _ _ _ Hin).
  destruct (isdigit (currentChar input index)); [reflexivity|]. cbn [orb].
  destruct (Ascii.eqb (currentChar input index) "-") eqn:Hc; [|reflexivity].
  apply Ascii.eqb_eq in Hc. specialize (Hsign Hc).
  rewrite (currentChar_append _ _ _ Hsign).
  pose proof (length_append input rest) as Hlen.
  replace (index + 1 <? String.length (input +:+ rest))%nat with true
    by (symmetry; apply Nat.ltb_lt; lia).
  replace (index + 1 <? String.length input)%nat with true
    by (symmetry; apply Nat.ltb_lt; lia).
  reflexivity.
Qed.

(** A call that returns before the end of [input] returns the same in
    every extension of [input]; the loop of a list, which returns on a
    closing parenthesis, does so wherever it returns. *)
Lemma parses_append input rest :
  (forall index r, parses strtod_decimal input index r ->
     forall a index', r = Returns a index' ->
       index <= String.length input -> index' < String.length input ->
       parses strtod_decimal (input +:+ rest) index (Returns a index'))
  /\ (forall index elements r, parses_elements strtod_decimal input index elements r ->
        forall a index', r = Returns a index' ->
          index <= String.length input ->
          parses_elements strtod_decimal (input +:+ rest) index elements (Returns a index')).
Proof.
  pose proof (length_append input rest) as Hlen.
  apply parses_mutual; try discriminate.
  - intros index r Hend Hopen _ IH a index' -> Hin Hlt.
    pose proof (skipWhitespace_append input rest index Hend) as Hskip.
    apply parses_list; rewrite Hskip.
    + lia.
    + rewrite currentChar_append; assumption.
    + apply IH; [reflexivity|lia].
  - intros index Hend Hopen Hnum a index' Hr Hin Hlt.
    pose proof (skipWhitespace_append input rest index Hend) as Hskip.
    set (start := skipWhitespace input index) in *.
    assert (Hlex : number_lexeme (input +:+ rest) start = number_lexeme input start).
    { apply number_lexeme_append. unfold parse_number in Hr.
      destruct (number_lexeme input start) as [number j].
      destruct (stod _ number); inversion Hr; subst. exact Hlt. }
    replace (Returns a index')
      with (parse_number strtod_decimal (input +:+ rest)
              (skipWhitespace (input +:+ rest) index))
      by (rewrite Hskip; unfold parse_number; rewrite Hlex; exact Hr).
    apply parses_number; rewrite Hskip.
    + lia.
    + rewrite currentChar_append; assumption.
    + rewrite number_start_append; [exact Hnum|exact Hend|].
      intros Hc. rewrite (parse_number_sign _ _ Hc) in Hr. discriminate Hr.
  - intros index Hend Hopen Hnum a index' Hr Hin Hlt.
    pose proof (skipWhitespace_append input rest index Hend) as Hskip.
    pose proof (skipWhitespace_stop input index Hend) as Hstop.
    set (start := skipWhitespace input index) in *.
    assert (Hend' : snd (symbol_lexeme input start) = index').
    { unfold parse_symbol in Hr. destruct (symbol_lexeme input start) as [symbol j].
      inversion Hr; subst. reflexivity. }
    assert (Hlex : symbol_lexeme (input +:+ rest) start = symbol_lexeme input start).
    { apply symbol_lexeme_append. rewrite Hend'. exact Hlt. }
    replace (Returns a index')
      with (parse_symbol (input +:+ rest) (skipWhitespace (input +:+ rest) index))
      by (rewrite Hskip; unfold parse_symbol; rewrite Hlex; exact Hr).
    apply parses_symbol; rewrite Hskip.
    + lia.
    + rewrite currentChar_append; assumption.
    + rewrite number_start_append; [exact Hnum|exact Hend|].
      intros Hc. rewrite symbol_lexeme_run in Hend'. cbn [snd] in Hend'.
      pose proof (run_end_progress symbolic (String.length input - start) input start
                    ltac:(lia) Hend
                    ltac:(unfold symbolic; rewrite Hstop, Hc; reflexivity)).
      lia.
  - intros index elements _ Hclose a index' [= <- <-] Hin.
    assert (index < String.length input).
    { eapply get_Some_lt, currentChar_get; [exact Hclose|discriminate]. }
    apply elements_close; [lia|]. rewrite currentChar_append; assumption.
  - intros index elements e index1 r _ Hclose Hchild IHchild Hrest IHrest
      a index' -> Hin.
    apply (proj1 (parses_within input)) in Hchild as Hchild'; [|exact Hin].
    cbn in Hchild'. destruct Hchild' as (H1 & H2 & H3). specialize (H3 Hclose).
    apply (proj2 (parses_within input)) in Hrest as Hrest';
      [|apply skipWhitespace_le, H2].
    cbn in Hrest'. destruct Hrest' as (H4 & H5 & H6). specialize (H6 I).
    pose proof (skipWhitespace_ge input index1) as Hge.
    assert (Hskip : skipWhitespace (input +:+ rest) index1 = skipWhitespace input index1)
      by (apply skipWhitespace_append; lia).
    eapply elements_child.
    + lia.
    + rewrite currentChar_append; [exact Hclose|lia].
    + apply IHchild; [reflexivity|exact Hin|lia].
    + rewrite Hskip. apply IHrest; [reflexivity|lia].
Qed.

End reader_properties.

(** ** Unterminated lists *)


Lemma parses_list_inv strtod_decimal input index r :
  parses strtod_decimal input index r ->
  skipWhitespace input index < String.length input ->
  currentChar input (skipWhitespace input index) = "("%char ->
  parses_elements strtod_decimal input (S (skipWhitespace input index)) [] r.
Proof.
  intros H Hend Hopen. inversion H; subst; [lia|assumption|contradiction..].
Qed.

(** The parse of an input that opens a list ends in one of two ways: it
    returns a list, with the cursor just after a closing parenthesis of
    the input, or it throws one of the exceptions of the reader, with
    the cursor inside the buffer. *)
Lemma opens_list_outcomes strtod_decimal input :
  opens_list input ->
  (exists elements index',
      parser_parse strtod_decimal input = Some (Returns (Some (lisp_list elements)) index')
      /\ String.get (index' - 1) input = Some ")"%char
      /\ index' <= String.length input)
  \/ (exists e index,
         parser_parse strtod_decimal input = Some (Throws e index)
         /\ reader_exception e
         /\ index <= String.length input).
Proof.
  intros [Hend Hopen].
  destruct (parser_parse_parses strtod_decimal input) as (r & Hr & Hp).
  pose proof (proj1 (parses_within strtod_decimal input) 0 r Hp ltac:(lia)) as Hin.
  destruct r as [a index|e index|]; cbn in Hin; [left|right|contradiction].
  - apply parses_list_inv in Hp; [|assumption..].
    destruct (parses_elements_close strtod_decimal _ _ _ _ Hp a index eq_refl)
      as [Hclose [elements ->]].
    exists elements, index. repeat split; [exact Hr|exact Hclose|lia].
  - exists e, index. split; [exact Hr|]. split; [|exact Hin].
    eapply (proj1 (parses_throws strtod_decimal input)); [exact Hp|reflexivity].
Qed.


(** ** Number literals *)

(** C5, on the code.  Where the input starts with [-] and a digit the
    number branch is entered, but its loop takes digits and points
    only: it stops at once on the sign, the lexeme is empty and
    [std::stod] throws [invalid_argument].  No sign-led literal is ever
    read; the parse of "-5" throws instead of returning the number
    -5. *)
Theorem sign_led_literal_rejected :
  (forall strtod_decimal input,
      sign_led input ->
      parser_parse strtod_decimal input
      = Some (Throws invalid_argument (skipWhitespace input 0)))
  /\ parser_parse strtod_nearest "-5" = Some (Throws invalid_argument 0).
Proof.
  split; [|vm_compute; reflexivity].
  intros strtod_decimal input (Hsign & Hnext & Hdigit).
  apply parses_parser_parse.
  rewrite <- (parse_number_sign strtod_decimal _ _ Hsign).
  apply parses_number.
  - lia.
  - rewrite Hsign. discriminate.
  - unfold number_start. rewrite Hsign, Hdigit.
    apply Nat.ltb_lt in Hnext. rewrite Hnext. reflexivity.
Qed.

Lemma sign_led_literal_rejected_witness :
  parser_parse strtod_nearest " -5"
  = Some (Throws invalid_argument (skipWhitespace " -5" 0)).
Proof.
  apply (proj1 sign_led_literal_rejected strtod_nearest " -5").
  repeat split. vm_compute. lia.
Defined.

Lemma digits_split s : s = digits s +:+ after_digits s.
Proof.
  induction s as [|c s IH]; [reflexivity|]. cbn [digits after_digits].
  destruct (isdigit c); [|reflexivity]. rewrite append_cons. f_equal. exact IH.
Qed.

(** The subject sequence is a prefix of the text given to [strtod]. *)
Lemma subject_sequence_prefix s subject :
  subject_sequence s = Some subject -> exists ignored, s = subject +:+ ignored.
Proof.
  unfold subject_sequence. intros H.
  assert (Hplain : (if (String.length (digits s) =? 0)%nat then None
                    else Some (digits s)) = Some subject ->
                   exists ignored, s = subject +:+ ignored).
  { destruct (String.length (digits s) =? 0)%nat; intros [= <-].
    exists (after_digits s). apply digits_split. }
  destruct (after_digits s) as [|c r] eqn:Hafter; [exact (Hplain H)|].
  destruct (Ascii.ascii_dec c ".") as [->|Hc].
  - destruct (_ =? 0)%nat; [discriminate|]. injection H as <-.
    exists (after_digits r).
    rewrite (digits_split s) at 1. rewrite Hafter, (digits_split r) at 1.
    rewrite !append_assoc. reflexivity.
  - apply Hplain. destruct c as [[] [] [] [] [] [] [] []]; try exact H.
    contradiction Hc. reflexivity.
Qed.

(** A text that starts with a digit has a subject sequence. *)
Lemma subject_sequence_digit c s :
  isdigit c = true -> exists subject, subject_sequence (String c s) = Some subject.
Proof.
  intros Hc. unfold subject_sequence. cbn [digits after_digits]. rewrite Hc.
  destruct (after_digits s) as [|c' r]; [cbn; eauto|].
  destruct c' as [[] [] [] [] [] [] [] []]; cbn; eauto.
Qed.

Lemma number_lexeme_digit input index :
  index < String.length input ->
  isdigit (currentChar input index) = true ->
  exists s, fst (number_lexeme input index) = String (currentChar input index) s.
Proof.
  intros Hin Hdigit. rewrite number_lexeme_run. cbn [fst].
  destruct (String.length input - index) as [|n] eqn:Hn; [lia|].
  cbn [run_chars]. apply Nat.ltb_lt in Hin. rewrite Hin.
  unfold numeric. rewrite Hdigit. cbn. eauto.
Qed.

(** C6, as stated, fails: the lexeme "1.2.3" is read whole and the
    parse returns the number 1.2 (the double [0x1.3333333333333p+0]),
    the value of its prefix "1.2". *)
Lemma malformed_lexeme_truncated :
  parser_parse strtod_nearest "1.2.3" = Some (Returns (Some (lisp_number 0x1.3333333333333p+0%float)) 5)
  /\ number_lexeme "1.2.3" 0 = ("1.2.3", 5)
  /\ subject_sequence "1.2.3" = Some "1.2"
  /\ ~ malformed_lexeme_fails strtod_nearest.
Proof.
  split; [vm_compute; reflexivity|]. split; [reflexivity|]. split; [reflexivity|].
  intros H. destruct (H "1.2.3") as (e & index & Hthrow).
  - vm_compute. lia.
  - reflexivity.
  - vm_compute. discriminate.
  - vm_compute in Hthrow. discriminate Hthrow.
Qed.

(** ** The lexeme of a number *)


(** The lexeme of the number branch is the run of digits and points at
    the cursor, and the cursor is left just after it. *)
Lemma number_lexeme_numeric_run input start :
  numeric_run input start (fst (number_lexeme input start))
  /\ snd (number_lexeme input start)
     = start + String.length (fst (number_lexeme input start)).
Proof.
  rewrite number_lexeme_run. cbn [fst snd].
  set (n := String.length input - start).
  pose proof (run_end_ge numeric n input start) as Hge.
  pose proof (run_chars_length numeric n input start) as Hlen.
  assert (Hcursor : start + String.length (run_chars numeric n input start)
                    = run_end numeric n input start) by lia.
  split; [|lia]. unfold numeric_run. rewrite Hcursor.
  split; [|split].
  - rewrite Hlen. apply run_chars_substring.
  - apply run_chars_all.
  - apply run_end_stop. unfold n. lia.
Qed.


(** ** The literal [std::stod] converts *)

Lemma points_append s1 s2 : points (s1 +:+ s2) = points s1 + points s2.
Proof.
  induction s1 as [|c s1 IH]; [reflexivity|].
  rewrite append_cons. cbn [points]. rewrite IH. lia.
Qed.

Lemma digits_points s : points (digits s) = 0.
Proof.
  induction s as [|c s IH]; [reflexivity|]. cbn [digits].
  destruct (isdigit c) eqn:Hc; [|reflexivity]. cbn [points]. rewrite IH.
  destruct (Ascii.eqb c ".") eqn:E; [|reflexivity].
  apply Ascii.eqb_eq in E. subst c. discriminate Hc.
Qed.

Lemma after_digits_numeric s :
  all_chars numeric s = true ->
  after_digits s = "" \/ exists rest, after_digits s = String "." rest
                                      /\ all_chars numeric rest = true.
Proof.
  induction s as [|c s IH]; intros H; [left; reflexivity|].
  cbn [all_chars] in H. apply andb_true_iff in H as [Hc Hs].
  cbn [after_digits]. destruct (isdigit c) eqn:Hd; [apply IH, Hs|].
  right. exists s. split; [|exact Hs].
  unfold numeric in Hc. rewrite Hd in Hc. cbn in Hc.
  apply Ascii.eqb_eq in Hc. subst c. reflexivity.
Qed.

(** On a run of digits and points, the subject sequence of [strtod] is
    everything up to the second point. *)
Lemma subject_sequence_longest lexeme subject :
  all_chars numeric lexeme = true ->
  subject_sequence lexeme = Some subject ->
  exists ignored, longest_literal lexeme subject ignored.
Proof.
  intros Hall. unfold subject_sequence.
  destruct (after_digits_numeric lexeme Hall) as [Hafter|(rest & Hafter & Hrest)];
    rewrite Hafter.
  - destruct (String.length (digits lexeme) =? 0)%nat; intros [= <-].
    exists "". split; [|split; [|left; reflexivity]].
    + rewrite (digits_split lexeme) at 1. rewrite Hafter. reflexivity.
    + rewrite digits_points. lia.
  - destruct (_ =? 0)%nat; intros [= <-].
    exists (after_digits rest). split; [|split].
    + rewrite (digits_split lexeme) at 1. rewrite Hafter.
      rewrite (digits_split rest) at 1. rewrite !append_assoc. reflexivity.
    + rewrite !points_append, !digits_points. cbn. lia.
    + destruct (after_digits_numeric rest Hrest) as [->|(rest' & -> & _)];
        [left; reflexivity|right].
      split; [|eauto]. rewrite !points_append, !digits_points. reflexivity.
Qed.

(** C6, amended.  A lexeme that starts with a digit never fails for
    being malformed.  The reader takes as the lexeme the whole run of
    digits and points that starts at the cursor, up to the first
    character that is neither or to the end of the input, and leaves
    the cursor just after it; [std::stod] converts the longest prefix
    of the lexeme that is a literal, which is everything up to the
    second point, and ignores the rest, so the parse returns the number
    of that prefix.  The only failure is the range error of the
    conversion itself.  The lexeme "1.2.3" is read whole and truncated:
    the parse returns the number 1.2, with the cursor at 5. *)
Theorem digit_led_lexeme_prefix :
  (forall strtod_decimal input,
      digit_led input ->
      exists lexeme subject ignored,
        numeric_run input (skipWhitespace input 0) lexeme
        /\ longest_literal lexeme subject ignored
        /\ subject_sequence lexeme = Some subject
        /\ parser_parse strtod_decimal input
           = Some match strtod_decimal subject with
                  | Some value =>
                      Returns (Some (lisp_number value))
                        (skipWhitespace input 0 + String.length lexeme)
                  | None =>
                      Throws out_of_range
                        (skipWhitespace input 0 + String.length lexeme)
                  end)
  /\ parser_parse strtod_nearest "1.2.3"
     = Some (Returns (Some (lisp_number 0x1.3333333333333p+0%float)) 5).
Proof.
  split; [|vm_compute; reflexivity].
  intros strtod_decimal input [Hend Hdigit].
  destruct (number_lexeme_numeric_run input (skipWhitespace input 0)) as [Hrun Hcursor].
  destruct (number_lexeme_digit _ _ Hend Hdigit) as [s Hs].
  destruct (subject_sequence_digit _ s Hdigit) as [subject Hsubject].
  rewrite <- Hs in Hsubject.
  destruct (subject_sequence_longest _ _ (proj1 (proj2 Hrun)) Hsubject)
    as [ignored Hlongest].
  exists (fst (number_lexeme input (skipWhitespace input 0))), subject, ignored.
  split; [exact Hrun|]. split; [exact Hlongest|]. split; [exact Hsubject|].
  apply parses_parser_parse. rewrite <- Hcursor.
  replace (match strtod_decimal subject with
           | Some value => Returns (Some (lisp_number value)) _
           | None => Throws out_of_range _
           end)
    with (parse_number strtod_decimal input (skipWhitespace input 0)).
  - apply parses_number; [exact Hend| |].
    + intros Hopen. rewrite Hopen in Hdigit. discriminate Hdigit.
    + unfold number_start. rewrite Hdigit. reflexivity.
  - unfold parse_number, stod.
    destruct (number_lexeme input (skipWhitespace input 0)) as [number index'].
    cbn [fst snd] in *. rewrite Hsubject.
    destruct (strtod_decimal subject); reflexivity.
Qed.

Lemma digit_led_lexeme_prefix_witness :
  exists lexeme subject ignored,
    numeric_run " 12.5.75)" (skipWhitespace " 12.5.75)" 0) lexeme
    /\ longest_literal lexeme subject ignored
    /\ subject_sequence lexeme = Some subject
    /\ parser_parse strtod_nearest " 12.5.75)"
       = Some match strtod_nearest subject with
              | Some value =>
                  Returns (Some (lisp_number value))
                    (skipWhitespace " 12.5.75)" 0 + String.length lexeme)
              | None =>
                  Throws out_of_range
                    (skipWhitespace " 12.5.75)" 0 + String.length lexeme)
              end.
Proof.
  apply (proj1 digit_led_lexeme_prefix strtod_nearest " 12.5.75)").
  split; [vm_compute; lia|reflexivity].
Defined.

(** ** The call stack *)

Lemma opens_from_0 input : opens_from input 0 = opens input.
Proof. destruct input; reflexivity. Qed.

Lemma opens_from_S input : forall index,
  opens_from input (S index) <= opens_from input index.
Proof.
  induction input as [|c s IH]; intros index; [cbn; lia|].
  destruct index as [|index]; [|apply IH].
  cbn [opens_from]. rewrite opens_from_0. cbn [opens]. lia.
Qed.

Lemma opens_from_le input index index' :
  index <= index' -> opens_from input index' <= opens_from input index.
Proof.
  induction 1 as [|index' _ IH]; [lia|].
  pose proof (opens_from_S input index'). lia.
Qed.

Lemma opens_from_open input : forall index,
  index < String.length input ->
  currentChar input index = "("%char ->
  opens_from input index = S (opens_from input (S index)).
Proof.
  induction input as [|c s IH]; intros index Hin Hopen; [cbn in Hin; lia|].
  destruct index as [|index].
  - unfold currentChar in Hopen. cbn in Hopen. subst c.
    cbn [opens_from]. rewrite opens_from_0. reflexivity.
  - cbn [opens_from]. apply IH; [cbn in Hin; lia|exact Hopen].
Qed.

Section frames.

Variable strtod_decimal : string -> option double.

(** With room for one call more than the input has opening parentheses
    left, the stack holds every call of the run. *)
Lemma parse_framed_parse fuel :
  (forall frames input index,
      opens_from input index < frames ->
      parse_framed strtod_decimal fuel frames input index
      = parse strtod_decimal fuel input index)
  /\ (forall frames input index elements,
         opens_from input index < frames ->
         parse_elements_framed strtod_decimal fuel frames input index elements
         = parse_elements strtod_decimal fuel input index elements).
Proof.
  induction fuel as [|fuel [IHparse IHelements]]; [split; reflexivity|].
  split.
  - intros [|frames] input index Hframes; [lia|].
    rewrite parse_S. cbn [parse_framed].
    pose proof (skipWhitespace_ge input index) as Hge.
    pose proof (opens_from_le input _ _ Hge) as Hle.
    destruct (String.length input <=? skipWhitespace input index)%nat eqn:Hend;
      [reflexivity|].
    apply Nat.leb_gt in Hend.
    destruct (Ascii.eqb (currentChar input (skipWhitespace input index)) "(") eqn:Hopen;
      [|reflexivity].
    apply Ascii.eqb_eq in Hopen.
    pose proof (opens_from_open input _ Hend Hopen).
    apply IHelements. lia.
  - intros frames input index elements Hframes.
    rewrite parse_elements_S. cbn [parse_elements_framed].
    destruct (String.length input <? index)%nat eqn:Hpast; [reflexivity|].
    apply Nat.ltb_ge in Hpast.
    destruct (negb (Ascii.eqb (currentChar input index) ")")); [|reflexivity].
    rewrite (IHparse frames input index Hframes).
    destruct (parse strtod_decimal fuel input index) as [[e index'|ex index'|]|] eqn:Hchild;
      try reflexivity.
    apply (proj1 (parse_parses strtod_decimal fuel)) in Hchild.
    apply (proj1 (parses_within strtod_decimal input)) in Hchild; [|exact Hpast].
    cbn in Hchild. destruct Hchild as (H1 & _).
    pose proof (skipWhitespace_ge input index') as Hge.
    pose proof (opens_from_le input index (skipWhitespace input index') ltac:(lia)).
    apply IHelements. lia.
Qed.

Lemma parser_parse_framed_parse frames input :
  opens input < frames ->
  parser_parse_framed strtod_decimal frames input = parser_parse strtod_decimal input.
Proof.
  intros H. apply parse_framed_parse. rewrite opens_from_0. exact H.
Qed.

End frames.

(** ** Why the reader throws *)

Section reader_throws.

Variable strtod_decimal : string -> option double.


End reader_throws.



(** * Further properties of the evaluator *)

(** ** Sums and products *)

(** X1.  A sum form whose operands all evaluate to numbers returns their
    sum, added from 0 in the order of the operands. *)
Theorem add_left_fold args env vs env' :
  operand_values args env = Returns vs env' ->
  eval (Some (lisp_list (Some (lisp_symbol "+") :: args))) env
  = Returns (Some (lisp_number (fold_left PrimFloat.add vs PrimFloat.zero))) env'.
Proof.
  intros H. rewrite eval_list_plus. unfold evalAdd.
  rewrite (bind_Returns _ _ _ _ _ (reduce_operand_values _ _ _ _ _ _ H)).
  reflexivity.
Qed.

Lemma add_left_fold_witness :
  eval (Some (lisp_list [Some (lisp_symbol "+"); Some (lisp_number 1%float);
                         Some (lisp_number 2%float)])) interpreter_init
  = Returns (Some (lisp_number 3%float)) interpreter_init.
Proof.
  apply (add_left_fold [Some (lisp_number 1%float); Some (lisp_number 2%float)]
           interpreter_init [1%float; 2%float] interpreter_init).
  reflexivity.
Defined.

(** X2.  A product form whose operands all evaluate to numbers returns
    their product, multiplied from 1 in the order of the operands. *)
Theorem multiply_left_fold args env vs env' :
  operand_values args env = Returns vs env' ->
  eval (Some (lisp_list (Some (lisp_symbol "*") :: args))) env
  = Returns (Some (lisp_number (fold_left PrimFloat.mul vs PrimFloat.one))) env'.
Proof.
  intros H. rewrite eval_list_times. unfold evalMultiply.
  rewrite (bind_Returns _ _ _ _ _ (reduce_operand_values _ _ _ _ _ _ H)).
  reflexivity.
Qed.

Lemma multiply_left_fold_witness :
  eval (Some (lisp_list [Some (lisp_symbol "*"); Some (lisp_number 3%float);
                         Some (lisp_number 4%float)])) interpreter_init
  = Returns (Some (lisp_number 12%float)) interpreter_init.
Proof.
  apply (multiply_left_fold [Some (lisp_number 3%float); Some (lisp_number 4%float)]
           interpreter_init [3%float; 4%float] interpreter_init).
  reflexivity.
Defined.

(** ** Dispatch *)

Lemma is_operator_names name : is_operator name = true <-> name ∈ operator_names.
Proof.
  unfold is_operator, operator_names. rewrite !orb_true_iff, !String.eqb_eq.
  rewrite !elem_of_cons, elem_of_nil. tauto.
Qed.

(** X3.  A form headed by a symbol that is not one of the four operator
    names throws "Unknown operator: " followed by the name.  It does so
    before any operand is evaluated: the operands may be anything, and
    the table is left as it was. *)
Theorem unknown_operator_throws name args env :
  is_operator name = false ->
  eval (Some (lisp_list (Some (lisp_symbol name) :: args))) env
  = Throws (runtime_error ("Unknown operator: " +:+ name)) env.
Proof.
  unfold is_operator. intros H.
  repeat (apply orb_false_iff in H as [H ?]).
  cbn [eval]. rewrite eval_object_list_cons.
  repeat match goal with E : String.eqb name _ = false |- _ => rewrite E; clear E end.
  reflexivity.
Qed.

Lemma unknown_operator_throws_witness :
  eval (Some (lisp_list [Some (lisp_symbol "foo"); Some (lisp_symbol "bar"); None]))
    interpreter_init
  = Throws (runtime_error "Unknown operator: foo") interpreter_init.
Proof. apply (unknown_operator_throws "foo"). reflexivity. Defined.

(** X4.  A non-empty form whose first element is not a symbol (a
    number, a list or a null pointer) has no defined value: the
    evaluator calls [getName] through the null result of the cast. *)
Theorem head_not_symbol_undefined head args env :
  is_symbol head = false ->
  eval (Some (lisp_list (head :: args))) env = Undefined.
Proof.
  intros H. cbn [eval]. rewrite eval_object_list_cons.
  destruct head as [[value|name|elements]|]; [reflexivity|discriminate H|reflexivity..].
Qed.

Lemma head_not_symbol_undefined_witness :
  eval (Some (lisp_list [Some (lisp_list [Some (lisp_symbol "+"); Some (lisp_number 1%float)]);
                         Some (lisp_number 2%float)])) interpreter_init
  = Undefined.
Proof. apply head_not_symbol_undefined. reflexivity. Defined.

(** ** Operands, in their order *)

Lemma operand_values_cons_inv arg args env vs env' :
  operand_values (arg :: args) env = Returns vs env' ->
  exists v vs' env1,
    vs = v :: vs'
    /\ number_value eval arg env = Returns v env1
    /\ operand_values args env1 = Returns vs' env'.
Proof.
  cbn [operand_values]. unfold bind at 1.
  destruct (number_value eval arg env) as [v env1| |]; [|discriminate..].
  unfold bind. destruct (operand_values args env1) as [vs' env2| |] eqn:Hvs;
    [|discriminate..].
  unfold ret. intros [= <- <-]. eauto 6.
Qed.

(** The loop of a reduction, once the operands in [done] have given
    their values, goes on with the operands left. *)
Lemma reduce_app op done : forall todo result env vs env1,
  operand_values done env = Returns vs env1 ->
  reduce eval op (done ++ todo) result env
  = reduce eval op todo (fold_left op vs result) env1.
Proof.
  induction done as [|arg done IH]; intros todo result env vs env1 H.
  - injection H as <- <-. reflexivity.
  - apply operand_values_cons_inv in H as (v & vs' & env0 & -> & Hv & Hvs).
    cbn [app reduce]. rewrite (bind_Returns _ _ _ _ _ Hv).
    cbn [fold_left]. apply IH, Hvs.
Qed.

(** The operand that does not give a number ends the form: the outcome
    of the form is that of reading this operand. *)
Lemma operator_form_stops name done arg todo env vs env1 :
  is_operator name = true ->
  operand_values done env = Returns vs env1 ->
  (forall v env2, number_value eval arg env1 <> Returns v env2) ->
  eval (Some (lisp_list (Some (lisp_symbol name) :: done ++ arg :: todo))) env
  = match number_value eval arg env1 with
    | Returns _ _ => Undefined
    | Throws ex env2 => Throws ex env2
    | Undefined => Undefined
    end.
Proof.
  intros Hname Hdone Hstop.
  assert (Hloop : forall op result,
             reduce eval op (done ++ arg :: todo) result env
             = match number_value eval arg env1 with
               | Returns _ _ => Undefined
               | Throws ex env2 => Throws ex env2
               | Undefined => Undefined
               end).
  { intros op result. rewrite (reduce_app _ _ _ _ _ _ _ Hdone). cbn [reduce].
    unfold bind at 1. destruct (number_value eval arg env1) as [v env2| |];
      [destruct (Hstop v env2); reflexivity|reflexivity..]. }
  assert (Hfirst : forall op,
             match done ++ arg :: todo with
             | [] => undefined
             | arg0 :: rest =>
                 let* result := number_value eval arg0 in
                 let* result := reduce eval op rest result in
                 ret (Some (lisp_number result))
             end env
             = match number_value eval arg env1 with
               | Returns _ _ => Undefined
               | Throws ex env2 => Throws ex env2
               | Undefined => Undefined
               end).
  { intros op. destruct done as [|arg0 done].
    - injection Hdone as <- <-. cbn [app]. unfold bind at 1.
      destruct (number_value eval arg env) as [v env2| |];
        [destruct (Hstop v env2); reflexivity|reflexivity..].
    - apply operand_values_cons_inv in Hdone as (v & vs' & env0 & -> & Hv & Hvs).
      cbn [app]. rewrite (bind_Returns _ _ _ _ _ Hv).
      unfold bind at 1. rewrite (reduce_app _ _ _ _ _ _ _ Hvs). cbn [reduce].
      unfold bind at 1. destruct (number_value eval arg env1) as [v' env2| |];
        [destruct (Hstop v' env2); reflexivity|reflexivity..]. }
  apply is_operator_names in Hname. unfold operator_names in Hname.
  repeat (apply elem_of_cons in Hname as [->|Hname]); [| | | |inversion Hname].
  - rewrite eval_list_plus. unfold evalAdd, bind at 1. rewrite Hloop.
    destruct (number_value eval arg env1); reflexivity.
  - rewrite eval_list_minus. apply Hfirst.
  - rewrite eval_list_times. unfold evalMultiply, bind at 1. rewrite Hloop.
    destruct (number_value eval arg env1); reflexivity.
  - rewrite eval_list_divide. apply Hfirst.
Qed.

(** X5.  Operands are evaluated from left to right and the first
    exception ends the form: when the operands before [arg] evaluate to
    numbers and [arg] throws, the form throws the same exception, with
    the table as that operand left it; the operands after it are not
    evaluated. *)
Theorem operand_exception_propagates name done arg todo env vs env1 ex env2 :
  is_operator name = true ->
  operand_values done env = Returns vs env1 ->
  eval arg env1 = Throws ex env2 ->
  eval (Some (lisp_list (Some (lisp_symbol name) :: done ++ arg :: todo))) env
  = Throws ex env2.
Proof.
  intros Hname Hdone Harg.
  assert (Hnum : number_value eval arg env1 = Throws ex env2).
  { unfold number_value. apply bind_Throws, Harg. }
  rewrite (operator_form_stops name done arg todo env vs env1 Hname Hdone).
  - rewrite Hnum. reflexivity.
  - intros v env3. rewrite Hnum. discriminate.
Qed.

Lemma operand_exception_propagates_witness :
  eval (Some (lisp_list [Some (lisp_symbol "+"); Some (lisp_number 1%float);
                         Some (lisp_list [Some (lisp_symbol "foo")]);
                         Some (lisp_symbol "bar")])) interpreter_init
  = Throws (UnknownOperator "foo") interpreter_init.
Proof.
  apply (operand_exception_propagates "+" [Some (lisp_number 1%float)]
           (Some (lisp_list [Some (lisp_symbol "foo")])) [Some (lisp_symbol "bar")]
           interpreter_init [1%float] interpreter_init);
    reflexivity.
Defined.

(** X6.  An operand that evaluates to anything but a number (a symbol,
    or the null pointer of an empty list or of an unbound symbol)
    leaves the form without a defined value: no exception is thrown
    for it, the evaluator calls [getValue] through the null result of
    the cast. *)
Theorem operand_not_number_undefined name done arg todo env vs env1 r env2 :
  is_operator name = true ->
  operand_values done env = Returns vs env1 ->
  eval arg env1 = Returns r env2 ->
  is_number r = false ->
  eval (Some (lisp_list (Some (lisp_symbol name) :: done ++ arg :: todo))) env
  = Undefined.
Proof.
  intros Hname Hdone Harg Hr.
  assert (Hnum : number_value eval arg env1 = Undefined).
  { unfold number_value. rewrite (bind_Returns _ _ _ _ _ Harg).
    destruct r as [[value|name'|elements]|]; [discriminate Hr|reflexivity..]. }
  rewrite (operator_form_stops name done arg todo env vs env1 Hname Hdone).
  - rewrite Hnum. reflexivity.
  - intros v env3. rewrite Hnum. discriminate.
Qed.

Lemma operand_not_number_undefined_witness :
  eval (Some (lisp_list [Some (lisp_symbol "*"); Some (lisp_number 2%float);
                         Some (lisp_list [])])) interpreter_init
  = Undefined.
Proof.
  apply (operand_not_number_undefined "*" [Some (lisp_number 2%float)]
           (Some (lisp_list [])) [] interpreter_init [2%float] interpreter_init
           None interpreter_init);
    reflexivity.
Defined.

(** ** Arithmetic expressions *)

Lemma eval_object_arithmetic expr :
  arithmetic expr = true ->
  forall env, eval_object expr env = Returns (Some (lisp_number (denote expr))) env.
Proof.
  induction expr as [value|name|elements IH] using lisp_object_nested_ind.
  - reflexivity.
  - discriminate.
  - destruct elements as [|[[value|name|elements]|] args]; try discriminate.
    cbn [arithmetic]. intros H env.
    apply andb_true_iff in H as [H Hargs]. apply andb_true_iff in H as [Hname Harity].
    apply Forall_cons in IH as [_ IH].
    set (value_of := fun p : lisp_object_ptr =>
                       match p with
                       | Some o => denote o
                       | None => PrimFloat.zero
                       end).
    assert (Hvalues : operand_values args env = Returns (map value_of args) env).
    { clear Harity. induction args as [|[o|] args IHargs]; [reflexivity| |discriminate].
      cbn [forallb] in Hargs. apply andb_true_iff in Hargs as [Ho Hargs].
      apply Forall_cons in IH as [IHo IH].
      cbn [operand_values map].
      assert (Hv : number_value eval (Some o) env = Returns (value_of (Some o)) env).
      { apply number_value_Returns. cbn [eval]. apply IHo, Ho. }
      rewrite (bind_Returns _ _ _ _ _ Hv).
      rewrite (bind_Returns _ _ _ _ _ (IHargs IH Hargs)). reflexivity. }
    change (eval_object (lisp_list (Some (lisp_symbol name) :: args)) env)
      with (eval (Some (lisp_list (Some (lisp_symbol name) :: args))) env).
    cbn [denote]. fold value_of.
    apply is_operator_names in Hname. unfold operator_names in Hname.
    repeat (apply elem_of_cons in Hname as [->|Hname]); [| | | |inversion Hname].
    + rewrite eval_list_plus. unfold evalAdd.
      rewrite (bind_Returns _ _ _ _ _ (reduce_operand_values _ _ _ _ _ _ Hvalues)).
      reflexivity.
    + destruct args as [|arg0 rest]; [discriminate Harity|].
      rewrite eval_list_minus. cbn [map] in *.
      apply operand_values_cons in Hvalues as (env1 & Hv & Hvs).
      cbn [evalSubtract]. rewrite (bind_Returns _ _ _ _ _ Hv).
      rewrite (bind_Returns _ _ _ _ _ (reduce_operand_values _ _ _ _ _ _ Hvs)).
      reflexivity.
    + rewrite eval_list_times. unfold evalMultiply.
      rewrite (bind_Returns _ _ _ _ _ (reduce_operand_values _ _ _ _ _ _ Hvalues)).
      reflexivity.
    + destruct args as [|arg0 rest]; [discriminate Harity|].
      rewrite eval_list_divide. cbn [map] in *.
      apply operand_values_cons in Hvalues as (env1 & Hv & Hvs).
      cbn [evalDivide]. rewrite (bind_Returns _ _ _ _ _ Hv).
      rewrite (bind_Returns _ _ _ _ _ (reduce_operand_values _ _ _ _ _ _ Hvs)).
      reflexivity.
Qed.

(** X7.  On an arithmetic expression the evaluator is the arithmetic it
    stands for: in any table it returns the number [denote] gives,
    throws nothing, and leaves the table as it was.  So the expression
    of [main] evaluates to 15. *)
Theorem arithmetic_value expr env :
  arithmetic expr = true ->
  eval (Some expr) env = Returns (Some (lisp_number (denote expr))) env.
Proof. intros H. apply eval_object_arithmetic, H. Qed.

Lemma arithmetic_value_witness :
  eval (Some (lisp_list [Some (lisp_symbol "+"); Some (lisp_number 1%float);
                         Some (lisp_number 2%float);
                         Some (lisp_list [Some (lisp_symbol "*");
                                          Some (lisp_number 3%float);
                                          Some (lisp_number 4%float)])]))
    interpreter_init
  = Returns (Some (lisp_number 15%float)) interpreter_init.
Proof.
  apply (arithmetic_value
           (lisp_list [Some (lisp_symbol "+"); Some (lisp_number 1%float);
                       Some (lisp_number 2%float);
                       Some (lisp_list [Some (lisp_symbol "*");
                                        Some (lisp_number 3%float);
                                        Some (lisp_number 4%float)])])
           interpreter_init).
  reflexivity.
Defined.

(** ** The exceptions of the evaluator *)

Lemma throws_only_ret {A} P (a : A) : throws_only P (ret a).
Proof. intros env ex env'. discriminate. Qed.

Lemma throws_only_undefined {A} P : throws_only P (@undefined A).
Proof. intros env ex env'. discriminate. Qed.

Lemma throws_only_throw {A} (P : exception -> Prop) ex : P ex -> throws_only P (@throw A ex).
Proof. intros H env ex' env' [= <- _]. exact H. Qed.

Lemma throws_only_bind {A B} P (m : M A) (k : A -> M B) :
  throws_only P m -> (forall a, throws_only P (k a)) -> throws_only P (bind m k).
Proof.
  intros Hm Hk env ex env'. unfold bind.
  destruct (m env) as [a env1|ex1 env1|] eqn:Em.
  - apply Hk.
  - intros [= <- _]. eapply Hm, Em.
  - discriminate.
Qed.

Lemma throws_only_globalEnv_index P name : throws_only P (globalEnv_index name).
Proof.
  intros env ex env'. unfold globalEnv_index. destruct (env !! name); discriminate.
Qed.

Section throws_only_reductions.

Variable ev : lisp_object_ptr -> M lisp_object_ptr.
Variable P : exception -> Prop.

Lemma throws_only_number_value arg :
  throws_only P (ev arg) -> throws_only P (number_value ev arg).
Proof.
  intros H. apply throws_only_bind; [exact H|].
  intros [[value|name|elements]|];
    apply throws_only_ret || apply throws_only_undefined.
Qed.

Lemma throws_only_reduce op args :
  Forall (fun arg => throws_only P (ev arg)) args ->
  forall result, throws_only P (reduce ev op args result).
Proof.
  induction 1 as [|arg args Harg _ IH]; intros result; cbn [reduce].
  - apply throws_only_ret.
  - apply throws_only_bind; [apply throws_only_number_value, Harg|].
    intros value. apply IH.
Qed.

Lemma throws_only_evalAdd args :
  Forall (fun arg => throws_only P (ev arg)) args -> throws_only P (evalAdd ev args).
Proof.
  intros H. apply throws_only_bind; [apply throws_only_reduce, H|].
  intros sum. apply throws_only_ret.
Qed.

Lemma throws_only_evalMultiply args :
  Forall (fun arg => throws_only P (ev arg)) args ->
  throws_only P (evalMultiply ev args).
Proof.
  intros H. apply throws_only_bind; [apply throws_only_reduce, H|].
  intros product. apply throws_only_ret.
Qed.

Lemma throws_only_evalSubtract args :
  Forall (fun arg => throws_only P (ev arg)) args ->
  throws_only P (evalSubtract ev args).
Proof.
  intros [|arg0 rest H0 Hrest]; [apply throws_only_undefined|].
  cbn [evalSubtract].
  apply throws_only_bind; [apply throws_only_number_value, H0|]. intros result.
  apply throws_only_bind; [apply throws_only_reduce, Hrest|]. intros result'.
  apply throws_only_ret.
Qed.

Lemma throws_only_evalDivide args :
  Forall (fun arg => throws_only P (ev arg)) args ->
  throws_only P (evalDivide ev args).
Proof.
  intros [|arg0 rest H0 Hrest]; [apply throws_only_undefined|].
  cbn [evalDivide].
  apply throws_only_bind; [apply throws_only_number_value, H0|]. intros result.
  apply throws_only_bind; [apply throws_only_reduce, Hrest|]. intros result'.
  apply throws_only_ret.
Qed.

End throws_only_reductions.

(** On a tree without null pointer the only exception is that of an
    unknown operator. *)
Lemma throws_only_eval_object expr :
  no_null expr = true -> throws_only unknown_operator (eval_object expr).
Proof.
  induction expr as [value|name|elements IH] using lisp_object_nested_ind.
  - intros _. apply throws_only_ret.
  - intros _. apply throws_only_globalEnv_index.
  - cbn [no_null]. intros Hnull.
    destruct elements as [|operatorSymbol args]; [apply throws_only_ret|].
    cbn [forallb] in Hnull. apply andb_true_iff in Hnull as [_ Hnull].
    apply Forall_cons in IH as [_ IH].
    assert (Hargs : Forall (fun arg => throws_only unknown_operator (eval arg)) args).
    { induction args as [|[o|] args IHargs]; [constructor| |discriminate Hnull].
      cbn [forallb] in Hnull. apply andb_true_iff in Hnull as [Ho Hnull].
      apply Forall_cons in IH as [IHo IH].
      constructor; [apply IHo, Ho|apply IHargs; assumption]. }
    rewrite eval_object_list_cons.
    destruct operatorSymbol as [[value|name|elements]|];
      try apply throws_only_undefined.
    destruct (String.eqb name "+") eqn:E1; [apply throws_only_evalAdd, Hargs|].
    destruct (String.eqb name "-") eqn:E2; [apply throws_only_evalSubtract, Hargs|].
    destruct (String.eqb name "*") eqn:E3; [apply throws_only_evalMultiply, Hargs|].
    destruct (String.eqb name "/") eqn:E4; [apply throws_only_evalDivide, Hargs|].
    apply throws_only_throw. exists name. split; [reflexivity|].
    unfold is_operator. rewrite E1, E2, E3, E4. reflexivity.
Qed.

(** X8.  Evaluating a tree that holds no null pointer never throws
    "Unknown expression": the only exception it can throw is "Unknown
    operator: " with the name of a symbol that is not one of the four
    operators. *)
Theorem no_null_throws_unknown_operator expr env ex env' :
  no_null expr = true ->
  eval (Some expr) env = Throws ex env' ->
  exists name, ex = runtime_error ("Unknown operator: " +:+ name)
               /\ is_operator name = false.
Proof. intros Hnull. apply (throws_only_eval_object expr Hnull). Qed.

Lemma no_null_throws_unknown_operator_witness :
  exists name, UnknownOperator "foo" = runtime_error ("Unknown operator: " +:+ name)
               /\ is_operator name = false.
Proof.
  apply (no_null_throws_unknown_operator (lisp_list [Some (lisp_symbol "foo")])
           interpreter_init (UnknownOperator "foo") interpreter_init);
    reflexivity.
Defined.

(** * Further properties of the reader *)

(** ** Texts before the buffer *)

Lemma get_shift pre s i : String.get (String.length pre + i) (pre +:+ s) = String.get i s.
Proof. rewrite Nat.add_comm. symmetry. apply append_correct2. Qed.

Lemma currentChar_shift pre s i :
  currentChar (pre +:+ s) (String.length pre + i) = currentChar s i.
Proof. unfold currentChar. rewrite get_shift. reflexivity. Qed.

Lemma run_shift keep pre s n : forall i,
  run_end keep n (pre +:+ s) (String.length pre + i)
  = String.length pre + run_end keep n s i
  /\ run_chars keep n (pre +:+ s) (String.length pre + i) = run_chars keep n s i.
Proof.
  induction n as [|n IH]; intros i; cbn [run_end run_chars]; [split; reflexivity|].
  rewrite currentChar_shift, length_append.
  replace (String.length pre + i <? String.length pre + String.length s)%nat
    with (i <? String.length s)%nat
    by (destruct (Nat.ltb_spec i (String.length s));
        symmetry; [apply Nat.ltb_lt|apply Nat.ltb_ge]; lia).
  destruct ((i <? String.length s)%nat && keep (currentChar s i));
    [|split; reflexivity].
  replace (S (String.length pre + i)) with (String.length pre + S i) by lia.
  destruct (IH (S i)) as [-> ->]. split; reflexivity.
Qed.

Lemma skipWhitespace_shift pre s i :
  skipWhitespace (pre +:+ s) (String.length pre + i)
  = String.length pre + skipWhitespace s i.
Proof.
  rewrite !skipWhitespace_run, length_append.
  replace (String.length pre + String.length s - (String.length pre + i))
    with (String.length s - i) by lia.
  apply run_shift.
Qed.

Lemma number_lexeme_shift pre s i :
  number_lexeme (pre +:+ s) (String.length pre + i)
  = (fst (number_lexeme s i), String.length pre + snd (number_lexeme s i)).
Proof.
  rewrite !number_lexeme_run, length_append. cbn [fst snd].
  replace (String.length pre + String.length s - (String.length pre + i))
    with (String.length s - i) by lia.
  destruct (run_shift numeric pre s (String.length s - i) i) as [-> ->]. reflexivity.
Qed.

Lemma symbol_lexeme_shift pre s i :
  symbol_lexeme (pre +:+ s) (String.length pre + i)
  = (fst (symbol_lexeme s i), String.length pre + snd (symbol_lexeme s i)).
Proof.
  rewrite !symbol_lexeme_run, length_append. cbn [fst snd].
  replace (String.length pre + String.length s - (String.length pre + i))
    with (String.length s - i) by lia.
  destruct (run_shift symbolic pre s (String.length s - i) i) as [-> ->]. reflexivity.
Qed.

Lemma number_start_shift pre s i :
  number_start (pre +:+ s) (String.length pre + i) = number_start s i.
Proof.
  unfold number_start. rewrite currentChar_shift, length_append.
  replace (String.length pre + i + 1) with (String.length pre + (i + 1)) by lia.
  rewrite currentChar_shift.
  replace (String.length pre + (i + 1) <? String.length pre + String.length s)%nat
    with (i + 1 <? String.length s)%nat
    by (destruct (Nat.ltb_spec (i + 1) (String.length s));
        symmetry; [apply Nat.ltb_lt|apply Nat.ltb_ge]; lia).
  reflexivity.
Qed.

Section reader_more.

Variable strtod_decimal : string -> option double.

Lemma parse_number_shift pre s i :
  parse_number strtod_decimal (pre +:+ s) (String.length pre + i)
  = shift_outcome (String.length pre) (parse_number strtod_decimal s i).
Proof.
  unfold parse_number. rewrite number_lexeme_shift.
  destruct (number_lexeme s i) as [number index']. cbn [fst snd].
  destruct (stod strtod_decimal number); reflexivity.
Qed.

Lemma parse_symbol_shift pre s i :
  parse_symbol (pre +:+ s) (String.length pre + i)
  = shift_outcome (String.length pre) (parse_symbol s i).
Proof.
  unfold parse_symbol. rewrite symbol_lexeme_shift.
  destruct (symbol_lexeme s i) as [symbol index']. reflexivity.
Qed.

(** What is before the cursor does not matter: a text put in front of
    the buffer moves every cursor by its length and changes nothing
    else. *)
Lemma parses_shift pre s :
  (forall i r, parses strtod_decimal s i r ->
     parses strtod_decimal (pre +:+ s) (String.length pre + i)
       (shift_outcome (String.length pre) r))
  /\ (forall i elements r, parses_elements strtod_decimal s i elements r ->
        parses_elements strtod_decimal (pre +:+ s) (String.length pre + i) elements
          (shift_outcome (String.length pre) r)).
Proof.
  pose proof (length_append pre s) as Hlen.
  apply parses_mutual.
  - intros i Hend. cbn [shift_outcome]. rewrite <- skipWhitespace_shift.
    apply parses_end. rewrite skipWhitespace_shift. lia.
  - intros i r Hend Hopen _ IH.
    apply parses_list; rewrite skipWhitespace_shift.
    + lia.
    + rewrite currentChar_shift. exact Hopen.
    + replace (S (String.length pre + skipWhitespace s i))
        with (String.length pre + S (skipWhitespace s i)) by lia.
      exact IH.
  - intros i Hend Hopen Hnum. rewrite <- parse_number_shift, <- skipWhitespace_shift.
    apply parses_number; rewrite skipWhitespace_shift.
    + lia.
    + rewrite currentChar_shift. exact Hopen.
    + rewrite number_start_shift. exact Hnum.
  - intros i Hend Hopen Hnum. rewrite <- parse_symbol_shift, <- skipWhitespace_shift.
    apply parses_symbol; rewrite skipWhitespace_shift.
    + lia.
    + rewrite currentChar_shift. exact Hopen.
    + rewrite number_start_shift. exact Hnum.
  - intros i elements Hpast. apply elements_past. lia.
  - intros i elements Hin Hclose. cbn [shift_outcome].
    replace (String.length pre + S i) with (S (String.length pre + i)) by lia.
    apply elements_close; [lia|]. rewrite currentChar_shift. exact Hclose.
  - intros i elements e index' r Hin Hclose _ IHchild _ IHrest.
    eapply elements_child.
    + lia.
    + rewrite currentChar_shift. exact Hclose.
    + exact IHchild.
    + rewrite skipWhitespace_shift. exact IHrest.
  - intros i elements ex index' Hin Hclose _ IHchild.
    cbn [shift_outcome]. eapply elements_throw.
    + lia.
    + rewrite currentChar_shift. exact Hclose.
    + exact IHchild.
  - intros i elements Hin Hclose _ IHchild.
    cbn [shift_outcome]. eapply elements_undefined.
    + lia.
    + rewrite currentChar_shift. exact Hclose.
    + exact IHchild.
Qed.

(** A call depends on its cursor through [skipWhitespace] only. *)
Lemma parses_skipWhitespace input i i' r :
  skipWhitespace input i = skipWhitespace input i' ->
  parses strtod_decimal input i r -> parses strtod_decimal input i' r.
Proof.
  intros Heq H. destruct H as [i Hend|i r Hend Hopen Hels|i Hend Hopen Hnum|i Hend Hopen Hnum];
    rewrite Heq in *.
  - apply parses_end. exact Hend.
  - apply parses_list; assumption.
  - apply parses_number; assumption.
  - apply parses_symbol; assumption.
Qed.

End reader_more.

(** ** White space *)

Lemma skipWhitespace_step input i :
  i < String.length input ->
  isspace (currentChar input i) = true ->
  skipWhitespace input i = skipWhitespace input (S i).
Proof.
  intros Hin Hspace. rewrite !skipWhitespace_run.
  replace (String.length input - i) with (S (String.length input - S i)) by lia.
  cbn [run_end]. apply Nat.ltb_lt in Hin. rewrite Hin, Hspace. reflexivity.
Qed.

Lemma skipWhitespace_stay input i :
  String.length input <= i \/ isspace (currentChar input i) = false ->
  skipWhitespace input i = i.
Proof.
  intros H. rewrite skipWhitespace_run.
  destruct (String.length input - i) as [|n] eqn:Hn; [reflexivity|].
  cbn [run_end]. destruct H as [H|H]; [lia|]. rewrite H, andb_false_r. reflexivity.
Qed.

Lemma skipWhitespace_blank ws : forall s,
  blank ws = true ->
  skipWhitespace (ws +:+ s) 0 = String.length ws + skipWhitespace s 0.
Proof.
  induction ws as [|c ws IH]; intros s H; [reflexivity|].
  cbn [blank] in H. apply andb_true_iff in H as [Hc Hws].
  rewrite skipWhitespace_step; [|rewrite append_cons; cbn [String.length]; lia|exact Hc].
  change (skipWhitespace (String c ws +:+ s) 1)
    with (skipWhitespace (String c "" +:+ (ws +:+ s)) (String.length (String c "") + 0)).
  rewrite (skipWhitespace_shift (String c "") (ws +:+ s) 0), (IH s Hws).
  reflexivity.
Qed.

Lemma run_end_kept keep n : forall input i k,
  i <= k -> k < run_end keep n input i -> keep (currentChar input k) = true.
Proof.
  induction n as [|n IH]; intros input i k Hik; cbn [run_end]; [lia|].
  destruct ((i <? String.length input)%nat && keep (currentChar input i)) eqn:E;
    [|lia].
  apply andb_true_iff in E as [_ E]. intros Hk.
  destruct (decide (k = i)) as [->|Hne]; [exact E|].
  apply (IH input (S i) k); [lia|exact Hk].
Qed.

(** ** Texts after the buffer *)

Lemma run_append_stop keep rest n : forall m input i,
  ends_run keep rest ->
  i <= String.length input ->
  String.length input - i <= n ->
  String.length (input +:+ rest) - i <= m ->
  run_end keep m (input +:+ rest) i = run_end keep n input i
  /\ run_chars keep m (input +:+ rest) i = run_chars keep n input i.
Proof.
  assert (Hlast : forall m input,
             ends_run keep rest ->
             run_end keep m (input +:+ rest) (String.length input) = String.length input
             /\ run_chars keep m (input +:+ rest) (String.length input) = "").
  { intros m input Hrest. destruct m as [|m]; cbn [run_end run_chars];
      [split; reflexivity|].
    rewrite length_append.
    replace (currentChar (input +:+ rest) (String.length input))
      with (currentChar rest 0)
      by (rewrite <- (currentChar_shift input rest 0); f_equal; lia).
    destruct rest as [|c rest'].
    - cbn [String.length].
      replace (String.length input <? String.length input + 0)%nat with false
        by (symmetry; apply Nat.ltb_ge; lia).
      split; reflexivity.
    - cbn [ends_run] in Hrest. change (currentChar (String c rest') 0) with c.
      rewrite Hrest, andb_false_r. split; reflexivity. }
  induction n as [|n IH]; intros m input i Hrest Hin Hn Hm.
  - assert (i = String.length input) as -> by lia.
    cbn [run_end run_chars]. apply Hlast, Hrest.
  - destruct (decide (i = String.length input)) as [->|Hne].
    + destruct (Hlast m input Hrest) as [-> ->]. cbn [run_end run_chars].
      replace (String.length input <? String.length input)%nat with false
        by (symmetry; apply Nat.ltb_ge; lia).
      split; reflexivity.
    + assert (Hlt : i < String.length input) by lia.
      pose proof (length_append input rest) as Hlen.
      destruct m as [|m]; [lia|]. cbn [run_end run_chars].
      rewrite (currentChar_append _ _ _ Hlt).
      replace (i <? String.length (input +:+ rest))%nat with true
        by (symmetry; apply Nat.ltb_lt; lia).
      replace (i <? String.length input)%nat with true
        by (symmetry; apply Nat.ltb_lt; lia).
      cbn [andb]. destruct (keep (currentChar input i)); [|split; reflexivity].
      destruct (IH m input (S i)) as [-> ->]; [exact Hrest|lia..|].
      split; reflexivity.
Qed.

Lemma isspace_not_digit c : isspace c = true -> isdigit c = false.
Proof.
  unfold isspace, isdigit. intros H.
  apply orb_true_iff in H as [H|H].
  - apply Nat.eqb_eq in H. rewrite H. reflexivity.
  - apply andb_true_iff in H as [_ H]. apply Nat.leb_le in H.
    apply andb_false_iff. left. apply Nat.leb_gt. lia.
Qed.

Lemma stops_numeric rest : stops rest = true -> ends_run numeric rest.
Proof.
  destruct rest as [|c rest]; [exact (fun _ => I)|]. cbn [stops ends_run]. intros H.
  unfold numeric. apply orb_true_iff in H as [H|H].
  - rewrite (isspace_not_digit _ H).
    destruct (Ascii.eqb c ".") eqn:E; [|reflexivity].
    apply Ascii.eqb_eq in E. subst c. discriminate H.
  - apply Ascii.eqb_eq in H. subst c. reflexivity.
Qed.

Lemma stops_symbolic rest : stops rest = true -> ends_run symbolic rest.
Proof.
  destruct rest as [|c rest]; [exact (fun _ => I)|]. cbn [stops ends_run]. intros H.
  unfold symbolic. apply orb_true_iff in H as [H|H]; rewrite H;
    [reflexivity|apply andb_false_r].
Qed.

Lemma stops_not_digit input rest :
  stops rest = true ->
  (String.length input <? String.length (input +:+ rest))%nat
  && isdigit (currentChar (input +:+ rest) (String.length input)) = false.
Proof.
  intros H. rewrite length_append.
  replace (currentChar (input +:+ rest) (String.length input))
    with (currentChar rest 0)
    by (rewrite <- (currentChar_shift input rest 0); f_equal; lia).
  destruct rest as [|c rest]; cbn [String.length].
  - replace (String.length input <? String.length input + 0)%nat with false
      by (symmetry; apply Nat.ltb_ge; lia).
    reflexivity.
  - cbn in H. change (currentChar (String c rest) 0) with c.
    apply orb_true_iff in H as [H|H].
    + rewrite (isspace_not_digit _ H). apply andb_false_r.
    + apply Ascii.eqb_eq in H. subst c. apply andb_false_r.
Qed.

Section reader_append.

Variable strtod_decimal : string -> option double.

(** A call that returns is not changed by a text put after the buffer,
    when the call returned a list or returned before the end of the
    buffer, or when the text starts with a character that ends a
    lexeme. *)
Lemma parses_append_stop input rest i a index' :
  parses strtod_decimal input i (Returns a index') ->
  i <= String.length input ->
  index' < String.length input \/ is_list a = true \/ stops rest = true ->
  parses strtod_decimal (input +:+ rest) i (Returns a index').
Proof.
  intros H Hin [Hlt|Hrest].
  { eapply (proj1 (parses_append strtod_decimal input rest)); eauto. }
  pose proof (length_append input rest) as Hlen.
  remember (Returns a index') as r eqn:Hr.
  destruct H as [i Hend|i r Hend Hopen Hels|i Hend Hopen Hnum|i Hend Hopen Hnum].
  - discriminate Hr.
  - subst r. pose proof (skipWhitespace_append input rest i Hend) as Hskip.
    apply parses_list; rewrite Hskip.
    + lia.
    + rewrite currentChar_append; assumption.
    + eapply (proj2 (parses_append strtod_decimal input rest)); [exact Hels|reflexivity|lia].
  - pose proof (skipWhitespace_append input rest i Hend) as Hskip.
    set (start := skipWhitespace input i) in *.
    assert (Hstops : stops rest = true).
    { destruct Hrest as [Hlist|Hstops]; [|exact Hstops].
      unfold parse_number in Hr. destruct (number_lexeme input start) as [number j].
      destruct (stod strtod_decimal number); inversion Hr; subst. discriminate Hlist. }
    assert (Hdigit : isdigit (currentChar input start) = true).
    { apply number_start_cases in Hnum as [Hd|(Hsign & _)]; [exact Hd|].
      rewrite (parse_number_sign _ _ _ Hsign) in Hr. discriminate Hr. }
    assert (Hlex : number_lexeme (input +:+ rest) start = number_lexeme input start).
    { rewrite !number_lexeme_run.
      destruct (run_append_stop numeric rest (String.length input - start)
                  (String.length (input +:+ rest) - start) input start)
        as [-> ->]; [apply stops_numeric, Hstops|lia..|reflexivity]. }
    replace (parse_number strtod_decimal input start)
      with (parse_number strtod_decimal (input +:+ rest)
              (skipWhitespace (input +:+ rest) i))
      by (rewrite Hskip; unfold parse_number; rewrite Hlex; reflexivity).
    apply parses_number; rewrite Hskip.
    + lia.
    + rewrite currentChar_append; assumption.
    + unfold number_start. rewrite (currentChar_append _ _ _ Hend), Hdigit.
      reflexivity.
  - pose proof (skipWhitespace_append input rest i Hend) as Hskip.
    set (start := skipWhitespace input i) in *.
    assert (Hstops : stops rest = true).
    { destruct Hrest as [Hlist|Hstops]; [|exact Hstops].
      unfold parse_symbol in Hr. destruct (symbol_lexeme input start) as [symbol j].
      inversion Hr; subst. discriminate Hlist. }
    assert (Hlex : symbol_lexeme (input +:+ rest) start = symbol_lexeme input start).
    { rewrite !symbol_lexeme_run.
      destruct (run_append_stop symbolic rest (String.length input - start)
                  (String.length (input +:+ rest) - start) input start)
        as [-> ->]; [apply stops_symbolic, Hstops|lia..|reflexivity]. }
    replace (parse_symbol input start)
      with (parse_symbol (input +:+ rest) (skipWhitespace (input +:+ rest) i))
      by (rewrite Hskip; unfold parse_symbol; rewrite Hlex; reflexivity).
    apply parses_symbol; rewrite Hskip.
    + lia.
    + rewrite currentChar_append; assumption.
    + rewrite <- Hnum. unfold number_start.
      rewrite (currentChar_append _ _ _ Hend).
      destruct (isdigit (currentChar input start)); [reflexivity|]. cbn [orb].
      destruct (Ascii.eqb (currentChar input start) "-"); [|reflexivity]. cbn [andb].
      destruct (decide (start + 1 < String.length input)) as [Hnext|Hlast].
      * rewrite (currentChar_append _ _ _ Hnext).
        replace (start + 1 <? String.length (input +:+ rest))%nat with true
          by (symmetry; apply Nat.ltb_lt; lia).
        replace (start + 1 <? String.length input)%nat with true
          by (symmetry; apply Nat.ltb_lt; lia).
        reflexivity.
      * replace (start + 1) with (String.length input) by lia.
        rewrite (stops_not_digit input rest Hstops).
        replace (String.length input <? String.length input)%nat with false
          by (symmetry; apply Nat.ltb_ge; lia).
        reflexivity.
Qed.

(** The reader builds trees without null pointer. *)
Lemma parses_no_null input :
  (forall i r, parses strtod_decimal input i r ->
     forall a index', r = Returns a index' -> pointer_no_null a = true)
  /\ (forall i elements r, parses_elements strtod_decimal input i elements r ->
        forallb pointer_no_null elements = true ->
        forall a index', r = Returns a index' -> pointer_no_null a = true).
Proof.
  apply parses_mutual; try discriminate.
  - intros i r _ _ _ IH a index' Hr. eapply IH; [reflexivity|exact Hr].
  - intros i _ _ _ a index'. unfold parse_number.
    destruct (number_lexeme _ _) as [number j].
    destruct (stod _ number); [discriminate|]. intros [= <- _]. reflexivity.
  - intros i _ _ _ a index'. unfold parse_symbol.
    destruct (symbol_lexeme _ _) as [symbol j]. intros [= <- _]. reflexivity.
  - intros i elements _ _ Hall a index' [= <- _]. exact Hall.
  - intros i elements e j r _ _ _ IHchild _ IHrest Hall a index' Hr.
    eapply IHrest; [|exact Hr].
    rewrite forallb_app, Hall. cbn [forallb].
    rewrite (IHchild e j eq_refl). reflexivity.
Qed.

End reader_append.

(** ** What the reader guarantees on every input *)

(** X9.  On every input of 7-bit characters, and on a stack with room
    for one call more than the input has opening parentheses, the
    parse ends, and ends in a defined way: it returns a node with the
    cursor inside the buffer, or it throws "Unexpected end of input" or
    an exception of [std::stod], with the cursor inside the buffer.  It
    never reads past the terminator of the buffer and never exhausts
    the stack.  (The characters are 7-bit so that [isspace] and
    [isdigit], which get a plain [char], are defined on each.) *)
Theorem parser_parse_defined strtod_decimal frames input :
  all_chars seven_bit input = true ->
  opens input < frames ->
  exists r,
    parser_parse_framed strtod_decimal frames input = Some r
    /\ match r with
       | Returns a index' => is_Some a /\ index' <= String.length input
       | Throws ex index' => reader_exception ex /\ index' <= String.length input
       | Undefined => False
       end.
Proof.
  intros _ Hframes. rewrite (parser_parse_framed_parse _ _ _ Hframes).
  destruct (parser_parse_parses strtod_decimal input) as (r & Hr & Hp).
  exists r. split; [exact Hr|].
  pose proof (proj1 (parses_within strtod_decimal input) 0 r Hp ltac:(lia)) as Hin.
  destruct r as [a index'|ex index'|]; cbn in Hin; [| |exact Hin].
  - split; [|lia].
    pose proof (proj1 (parses_no_null strtod_decimal input) 0 _ Hp a index' eq_refl) as Ha.
    destruct a; [eexists; reflexivity|discriminate Ha].
  - split; [|exact Hin].
    eapply (proj1 (parses_throws strtod_decimal input)); [exact Hp|reflexivity].
Qed.

Lemma parser_parse_defined_witness :
  exists r,
    parser_parse_framed strtod_nearest 3 "(a (b 1.5) c" = Some r
    /\ match r with
       | Returns a index' => is_Some a /\ index' <= 12
       | Throws ex index' => reader_exception ex /\ index' <= 12
       | Undefined => False
       end.
Proof.
  apply (parser_parse_defined strtod_nearest 3 "(a (b 1.5) c").
  - reflexivity.
  - vm_compute. lia.
Defined.

(** X10.  The tree the reader returns holds no null pointer, at any
    depth. *)
Theorem parsed_tree_no_null strtod_decimal input a index' :
  parser_parse strtod_decimal input = Some (Returns a index') ->
  pointer_no_null a = true.
Proof.
  intros H. destruct (parser_parse_parses strtod_decimal input) as (r & Hr & Hp).
  rewrite H in Hr. injection Hr as <-.
  eapply (proj1 (parses_no_null strtod_decimal input)); [exact Hp|reflexivity].
Qed.

Lemma parsed_tree_no_null_witness :
  pointer_no_null
    (Some (lisp_list [Some (lisp_symbol "a"); Some (lisp_list []);
                      Some (lisp_number 1%float)])) = true.
Proof.
  apply (parsed_tree_no_null strtod_nearest "(a () 1)" _ 8).
  vm_compute. reflexivity.
Defined.

(** X11.  Reading then evaluating never throws "Unknown expression":
    the only exception the evaluation of a parsed input can throw is
    "Unknown operator: " with the name of a symbol that is not one of
    the four operators. *)
Theorem evaluate_parsed_throws input ex env :
  evaluate_parsed input = Some (Throws ex env) ->
  exists name, ex = runtime_error ("Unknown operator: " +:+ name)
               /\ is_operator name = false.
Proof.
  unfold evaluate_parsed.
  destruct (parser_parse_parses strtod_nearest input) as (r & Hr & Hp).
  rewrite Hr. destruct r as [a index'|ex' index'|]; [|discriminate..].
  pose proof (proj1 (parses_no_null strtod_nearest input) 0 _ Hp a index' eq_refl) as Ha.
  destruct a as [expr|]; [|discriminate Ha].
  intros [= H]. exact (throws_only_eval_object expr Ha _ _ _ H).
Qed.

Lemma evaluate_parsed_throws_witness :
  exists name, UnknownOperator "foo" = runtime_error ("Unknown operator: " +:+ name)
               /\ is_operator name = false.
Proof.
  apply (evaluate_parsed_throws "(+ 1 (foo 2))" (UnknownOperator "foo") interpreter_init).
  vm_compute. reflexivity.
Defined.

(** X12.  An input of white space only, the empty input among them,
    throws "Unexpected end of input", with the cursor at the end of the
    buffer. *)
Theorem blank_input_ends strtod_decimal input :
  blank input = true ->
  parser_parse strtod_decimal input
  = Some (Throws UnexpectedEndOfInput (String.length input)).
Proof.
  intros H. apply parses_parser_parse.
  pose proof (skipWhitespace_blank input "" H) as Hskip.
  rewrite append_empty_r in Hskip.
  assert (Hend : skipWhitespace input 0 = String.length input)
    by (rewrite Hskip, (skipWhitespace_stay "" 0); [lia|left; cbn; lia]).
  rewrite <- Hend. apply parses_end. lia.
Qed.

Lemma blank_input_ends_witness :
  parser_parse strtod_nearest "  " = Some (Throws UnexpectedEndOfInput 2).
Proof. apply (blank_input_ends strtod_nearest "  "). reflexivity. Defined.

(** X13.  White space before the expression is skipped: putting white
    space in front of the input moves the cursor of the outcome by its
    length and changes nothing else. *)
Theorem leading_whitespace_skipped strtod_decimal ws input :
  blank ws = true ->
  parser_parse strtod_decimal (ws +:+ input)
  = option_map (shift_outcome (String.length ws)) (parser_parse strtod_decimal input).
Proof.
  intros H. destruct (parser_parse_parses strtod_decimal input) as (r & Hr & Hp).
  rewrite Hr. cbn [option_map]. apply parses_parser_parse.
  apply (proj1 (parses_shift strtod_decimal ws input)) in Hp.
  eapply parses_skipWhitespace; [|exact Hp].
  rewrite skipWhitespace_shift, (skipWhitespace_blank ws input H). reflexivity.
Qed.

Lemma leading_whitespace_skipped_witness :
  parser_parse strtod_nearest " (a)"
  = option_map (shift_outcome 1) (parser_parse strtod_nearest "(a)").
Proof. apply (leading_whitespace_skipped strtod_nearest " " "(a)"). reflexivity. Defined.

(** X14.  What follows the expression is not read.  When the parse
    returns a list, or returns before the end of the input, it returns
    the same node and cursor whatever text is put after the input; a
    number or a symbol that ends with the input is returned the same
    when the text put after starts with white space or a closing
    parenthesis. *)
Theorem trailing_text_ignored strtod_decimal input rest a index' :
  parser_parse strtod_decimal input = Some (Returns a index') ->
  index' < String.length input \/ is_list a = true \/ stops rest = true ->
  parser_parse strtod_decimal (input +:+ rest) = Some (Returns a index').
Proof.
  intros H Hrest. destruct (parser_parse_parses strtod_decimal input) as (r & Hr & Hp).
  rewrite H in Hr. injection Hr as <-.
  apply parses_parser_parse, parses_append_stop; [exact Hp|lia|exact Hrest].
Qed.

Lemma trailing_text_ignored_witness :
  parser_parse strtod_nearest ("(+ 1 2)" +:+ "garbage (")
  = Some (Returns (Some (lisp_list [Some (lisp_symbol "+"); Some (lisp_number 1%float);
                                    Some (lisp_number 2%float)])) 7).
Proof.
  apply (trailing_text_ignored strtod_nearest "(+ 1 2)" "garbage (").
  - vm_compute. reflexivity.
  - right. left. reflexivity.
Defined.

(** X15.  [skipWhitespace] moves the cursor to the first character at
    or after it that is not white space, or to the end of the buffer
    when there is none: it never moves back, never past the end, and
    skips white space only. *)
Theorem skipWhitespace_first_nonblank input index :
  index <= String.length input ->
  index <= skipWhitespace input index
  /\ skipWhitespace input index <= String.length input
  /\ (forall k, index <= k -> k < skipWhitespace input index ->
        isspace (currentChar input k) = true)
  /\ (skipWhitespace input index < String.length input ->
      isspace (currentChar input (skipWhitespace input index)) = false).
Proof.
  intros Hin. split; [apply skipWhitespace_ge|]. split; [apply skipWhitespace_le, Hin|].
  split; [|apply skipWhitespace_stop].
  intros k Hk Hlt. rewrite skipWhitespace_run in Hlt.
  eapply run_end_kept; eassumption.
Qed.

Lemma skipWhitespace_first_nonblank_witness : 1 <= skipWhitespace "a  b" 1.
Proof. apply (skipWhitespace_first_nonblank "a  b" 1). vm_compute. lia. Defined.

(** ** Symbols *)

(** X16.  Where the input starts with a character that is neither an
    opening parenthesis nor the start of a number, the reader returns a
    symbol whose name is the run of characters from there up to the
    next white space or closing parenthesis, or the end of the input:
    the name is that part of the input, it holds no white space and no
    closing parenthesis (an opening parenthesis inside it is part of
    the name), and the cursor is left just after it.  The name is empty
    exactly when the input starts with a closing parenthesis, and then
    nothing is consumed. *)
Theorem symbol_is_run strtod_decimal input :
  symbol_led input ->
  exists name,
    parser_parse strtod_decimal input
    = Some (Returns (Some (lisp_symbol name))
              (skipWhitespace input 0 + String.length name))
    /\ name = substring (skipWhitespace input 0) (String.length name) input
    /\ all_chars symbolic name = true
    /\ (skipWhitespace input 0 + String.length name < String.length input ->
        symbolic (currentChar input (skipWhitespace input 0 + String.length name))
        = false)
    /\ (name = "" <-> currentChar input (skipWhitespace input 0) = ")"%char).
Proof.
  intros (Hend & Hopen & Hnum).
  pose proof (skipWhitespace_stop input 0 Hend) as Hspace.
  set (start := skipWhitespace input 0) in *.
  set (n := String.length input - start).
  pose proof (run_end_ge symbolic n input start) as Hge.
  pose proof (run_chars_length symbolic n input start) as Hlen.
  assert (Hcursor : start + String.length (run_chars symbolic n input start)
                    = run_end symbolic n input start) by lia.
  exists (run_chars symbolic n input start). rewrite Hcursor.
  split; [|split; [|split; [|split]]].
  - apply parses_parser_parse.
    replace (Returns _ _) with (parse_symbol input (skipWhitespace input 0))
      by (unfold parse_symbol; rewrite symbol_lexeme_run; reflexivity).
    apply parses_symbol; assumption.
  - rewrite Hlen. apply run_chars_substring.
  - apply run_chars_all.
  - apply run_end_stop. unfold n. lia.
  - split.
    + intros Hempty.
      destruct (Ascii.eqb (currentChar input start) ")") eqn:E;
        [apply Ascii.eqb_eq, E|].
      exfalso. rewrite Hempty in Hlen. cbn in Hlen.
      pose proof (run_end_progress symbolic n input start ltac:(unfold n; lia) Hend
                    ltac:(unfold symbolic; rewrite Hspace, E; reflexivity)).
      lia.
    + intros Hclose.
      destruct (run_stuck symbolic n input start) as [_ ->]; [|reflexivity].
      unfold symbolic. rewrite Hclose. apply andb_false_r.
Qed.

Lemma symbol_is_run_witness :
  exists name,
    parser_parse strtod_nearest " a(b c"
    = Some (Returns (Some (lisp_symbol name))
              (skipWhitespace " a(b c" 0 + String.length name))
    /\ name = substring (skipWhitespace " a(b c" 0) (String.length name) " a(b c"
    /\ all_chars symbolic name = true
    /\ (skipWhitespace " a(b c" 0 + String.length name < String.length " a(b c" ->
        symbolic (currentChar " a(b c" (skipWhitespace " a(b c" 0 + String.length name))
        = false)
    /\ (name = "" <-> currentChar " a(b c" (skipWhitespace " a(b c" 0) = ")"%char).
Proof.
  apply (symbol_is_run strtod_nearest " a(b c").
  split; [vm_compute; lia|]. split; [vm_compute; discriminate|reflexivity].
Defined.

(** X17.  The loop of the list branch tests for the closing parenthesis
    before white space is skipped.  So white space between the two
    parentheses does not give the empty list: the closing parenthesis
    is read as a symbol with the empty name, and the list holds that
    symbol. *)
Theorem blank_list_holds_empty_symbol strtod_decimal ws rest :
  blank ws = true ->
  ws <> "" ->
  parser_parse strtod_decimal ("(" +:+ ws +:+ ")" +:+ rest)
  = Some (Returns (Some (lisp_list [Some (lisp_symbol "")])) (String.length ws + 2)).
Proof.
  intros Hblank Hne. apply parses_parser_parse.
  set (input := "(" +:+ ws +:+ ")" +:+ rest).
  assert (Hlen : String.length input = String.length ws + 2 + String.length rest).
  { unfold input. rewrite !length_append. cbn. lia. }
  assert (Hclose : currentChar input (S (String.length ws)) = ")"%char).
  { unfold input.
    change (S (String.length ws)) with (String.length "(" + String.length ws).
    rewrite (currentChar_shift "(" (ws +:+ ")" +:+ rest) (String.length ws)).
    replace (String.length ws) with (String.length ws + 0) at 1 by lia.
    rewrite (currentChar_shift ws (")" +:+ rest) 0). reflexivity. }
  assert (Hskip : skipWhitespace input 1 = S (String.length ws)).
  { unfold input.
    change 1 with (String.length "(" + 0).
    rewrite (skipWhitespace_shift "(" (ws +:+ ")" +:+ rest) 0).
    rewrite (skipWhitespace_blank ws (")" +:+ rest) Hblank).
    rewrite (skipWhitespace_stay (")" +:+ rest) 0); [cbn; lia|right; reflexivity]. }
  assert (Hfirst : currentChar input 1 <> ")"%char).
  { unfold input. change 1 with (String.length "(" + 0).
    rewrite (currentChar_shift "(" (ws +:+ ")" +:+ rest) 0).
    destruct ws as [|c ws']; [contradiction|].
    cbn [blank] in Hblank. apply andb_true_iff in Hblank as [Hc _].
    change (currentChar (String c ws' +:+ ")" +:+ rest) 0) with c.
    intros ->. discriminate Hc. }
  apply parses_list.
  - rewrite (skipWhitespace_stay input 0); [lia|right; reflexivity].
  - rewrite (skipWhitespace_stay input 0); [reflexivity|right; reflexivity].
  - rewrite (skipWhitespace_stay input 0); [|right; reflexivity].
    eapply (elements_child _ _ _ _ (Some (lisp_symbol "")) (S (String.length ws))).
    + lia.
    + exact Hfirst.
    + replace (Returns (Some (lisp_symbol "")) (S (String.length ws)))
        with (parse_symbol input (skipWhitespace input 1)).
      * apply parses_symbol; rewrite Hskip.
        -- lia.
        -- rewrite Hclose. discriminate.
        -- unfold number_start. rewrite Hclose. reflexivity.
      * rewrite Hskip. unfold parse_symbol. rewrite symbol_lexeme_run.
        destruct (run_stuck symbolic (String.length input - S (String.length ws)) input
                    (S (String.length ws))) as [-> ->]; [|reflexivity].
        unfold symbolic. rewrite Hclose. apply andb_false_r.
    + rewrite (skipWhitespace_stay input (S (String.length ws)));
        [|right; rewrite Hclose; reflexivity].
      replace (String.length ws + 2) with (S (S (String.length ws))) by lia.
      apply elements_close; [lia|exact Hclose].
Qed.

Lemma blank_list_holds_empty_symbol_witness :
  parser_parse strtod_nearest ("(" +:+ " " +:+ ")" +:+ "")
  = Some (Returns (Some (lisp_list [Some (lisp_symbol "")])) (String.length " " + 2)).
Proof.
  apply (blank_list_holds_empty_symbol strtod_nearest " " ""); [reflexivity|discriminate].
Defined.

(** * Properties of the printer *)

Section printer_defined.

Variable to_string : double -> string.

Lemma elements_toString_defined elements :
  Forall (pointee_holds (fun o => is_Some (toString to_string o) <-> no_null o = true))
    elements ->
  forall oss,
    is_Some (elements_toString (toString to_string) elements oss)
    <-> forallb pointer_no_null elements = true.
Proof.
  induction 1 as [|[o|] elements Ho _ IH]; intros oss; cbn [elements_toString forallb].
  - split; [reflexivity|eauto].
  - cbn [pointee_holds] in Ho. cbn [pointer_no_null].
    destruct (toString to_string o) as [s|].
    + rewrite IH. destruct Ho as [Ho _]. rewrite (Ho ltac:(eauto)). reflexivity.
    + destruct (no_null o); [destruct Ho as [_ Ho]; destruct (Ho eq_refl); discriminate|].
      split; [intros [? ?]; discriminate|discriminate].
  - split; [intros [? ?]; discriminate|discriminate].
Qed.

(** X18.  [toString] is defined exactly on the trees without null
    pointer: a null element anywhere in the tree makes the call go
    through a null pointer. *)
Theorem toString_defined expr :
  is_Some (toString to_string expr) <-> no_null expr = true.
Proof.
  induction expr as [value|name|elements IH] using lisp_object_nested_ind.
  - split; [reflexivity|eauto].
  - split; [reflexivity|eauto].
  - cbn [toString no_null].
    pose proof (elements_toString_defined elements IH "(") as H.
    change (forallb _ elements) with (forallb pointer_no_null elements).
    destruct (elements_toString (toString to_string) elements "(") as [oss|].
    + rewrite <- H. split; eauto.
    + rewrite <- H. split; intros [? ?]; discriminate.
Qed.

End printer_defined.

(** ** Reading back what was printed *)

Lemma append_snoc pre c s : pre +:+ String c s = (pre +:+ String c "") +:+ s.
Proof. rewrite append_assoc. reflexivity. Qed.

Lemma currentChar_first pre c s : currentChar (pre +:+ String c s) (String.length pre) = c.
Proof.
  replace (String.length pre) with (String.length pre + 0) by lia.
  rewrite currentChar_shift. reflexivity.
Qed.

(** A text of characters of the run is the run, whole. *)
Lemma run_all keep s : forall pre,
  all_chars keep s = true ->
  run_end keep (String.length s) (pre +:+ s) (String.length pre)
  = String.length pre + String.length s
  /\ run_chars keep (String.length s) (pre +:+ s) (String.length pre) = s.
Proof.
  induction s as [|c s IH]; intros pre H.
  - cbn [String.length run_end run_chars]. split; [lia|reflexivity].
  - cbn [all_chars] in H. apply andb_true_iff in H as [Hc Hs].
    cbn [String.length run_end run_chars].
    rewrite currentChar_first, Hc, length_append. cbn [String.length].
    replace (String.length pre <? String.length pre + S (String.length s))%nat
      with true by (symmetry; apply Nat.ltb_lt; lia).
    cbn [andb]. rewrite append_snoc.
    replace (S (String.length pre)) with (String.length (pre +:+ String c ""))
      by (rewrite length_append; cbn; lia).
    destruct (IH (pre +:+ String c "") Hs) as [-> ->].
    rewrite length_append. cbn [String.length]. split; [lia|reflexivity].
Qed.

Lemma run_all_0 keep s :
  all_chars keep s = true ->
  run_end keep (String.length s - 0) s 0 = String.length s
  /\ run_chars keep (String.length s - 0) s 0 = s.
Proof. intros H. rewrite Nat.sub_0_r. apply (run_all keep s "" H). Qed.

Lemma isdigit_symbolic c : isdigit c = true -> symbolic c = true.
Proof.
  intros H. unfold symbolic.
  destruct (isspace c) eqn:Hs; [rewrite (isspace_not_digit _ Hs) in H; discriminate H|].
  destruct (Ascii.eqb c ")") eqn:Hc; [|reflexivity].
  apply Ascii.eqb_eq in Hc. subst c. discriminate H.
Qed.

Lemma starts_first s rest :
  starts s = true ->
  isspace (currentChar (s +:+ rest) 0) = false
  /\ currentChar (s +:+ rest) 0 <> ")"%char.
Proof.
  destruct s as [|c s]; [discriminate|]. cbn [starts]. unfold symbolic. intros H.
  change (currentChar (String c s +:+ rest) 0) with c.
  apply andb_true_iff in H as [H1 H2].
  split; [destruct (isspace c); [discriminate H1|reflexivity]|].
  intros ->. discriminate H2.
Qed.

Section round_trip.

Variable to_string : double -> string.
Variable strtod_decimal : string -> option double.

Lemma plain_name_parses name :
  plain_name name = true ->
  starts name = true
  /\ parses strtod_decimal name 0 (Returns (Some (lisp_symbol name)) (String.length name)).
Proof.
  destruct name as [|c rest] eqn:Hname; [discriminate|]. rewrite <- Hname.
  unfold plain_name. rewrite Hname at 1. intros H.
  apply andb_true_iff in H as [H Hall]. apply andb_true_iff in H as [H Hsign].
  apply andb_true_iff in H as [Hopen Hdigit].
  assert (Hc : symbolic c = true).
  { rewrite Hname in Hall. cbn [all_chars] in Hall.
    apply andb_true_iff in Hall as [Hc _]. exact Hc. }
  assert (Hstart : starts name = true) by (rewrite Hname; exact Hc).
  split; [exact Hstart|].
  assert (Hskip : skipWhitespace name 0 = 0).
  { apply skipWhitespace_stay. right.
    pose proof (starts_first name "" Hstart) as [Hspace _].
    rewrite append_empty_r in Hspace. exact Hspace. }
  assert (Hchar : currentChar name 0 = c) by (rewrite Hname; reflexivity).
  replace (Returns (Some (lisp_symbol name)) (String.length name))
    with (parse_symbol name (skipWhitespace name 0)).
  - apply parses_symbol; rewrite Hskip.
    + rewrite Hname. cbn. lia.
    + rewrite Hchar. intros ->. discriminate Hopen.
    + unfold number_start. rewrite Hchar.
      destruct (isdigit c); [discriminate Hdigit|]. cbn [orb].
      destruct (Ascii.eqb c "-"); [|reflexivity]. cbn [andb] in *.
      rewrite Hname. destruct rest as [|d rest']; [reflexivity|].
      change (currentChar (String c (String d rest')) (0 + 1)) with d.
      destruct (isdigit d); [discriminate Hsign|]. apply andb_false_r.
  - rewrite Hskip. unfold parse_symbol. rewrite symbol_lexeme_run.
    destruct (run_all_0 symbolic name Hall) as [-> ->]. reflexivity.
Qed.

Lemma reads_back_parses value :
  reads_back to_string strtod_decimal value = true ->
  starts (to_string value) = true
  /\ parses strtod_decimal (to_string value) 0
       (Returns (Some (lisp_number value)) (String.length (to_string value))).
Proof.
  unfold reads_back. intros H.
  apply andb_true_iff in H as [H Hstod]. apply andb_true_iff in H as [Hdigit Hall].
  destruct (to_string value) as [|c rest] eqn:Htext; [discriminate|]. rewrite <- Htext in *.
  assert (Hstart : starts (to_string value) = true)
    by (rewrite Htext; apply isdigit_symbolic, Hdigit).
  split; [exact Hstart|].
  assert (Hskip : skipWhitespace (to_string value) 0 = 0).
  { apply skipWhitespace_stay. right.
    pose proof (starts_first (to_string value) "" Hstart) as [Hspace _].
    rewrite append_empty_r in Hspace. exact Hspace. }
  assert (Hchar : currentChar (to_string value) 0 = c) by (rewrite Htext; reflexivity).
  replace (Returns (Some (lisp_number value)) (String.length (to_string value)))
    with (parse_number strtod_decimal (to_string value)
            (skipWhitespace (to_string value) 0)).
  - apply parses_number; rewrite Hskip.
    + rewrite Htext. cbn. lia.
    + rewrite Hchar. intros ->. discriminate Hdigit.
    + unfold number_start. rewrite Hchar, Hdigit. reflexivity.
  - rewrite Hskip. unfold parse_number. rewrite number_lexeme_run.
    destruct (run_all_0 numeric (to_string value) Hall) as [-> ->].
    destruct (stod strtod_decimal (to_string value)) as [ex|value'];
      [discriminate Hstod|].
    apply FloatAxioms.Leibniz.eqb_spec in Hstod. subst value'. reflexivity.
Qed.

Lemma elements_read_back todo :
  Forall (pointee_holds (reads_as to_string strtod_decimal)) todo ->
  forallb (fun p : lisp_object_ptr =>
             match p with
             | Some o => printable to_string strtod_decimal o
             | None => false
             end) todo = true ->
  forall oss, exists body,
    elements_toString (toString to_string) todo oss = Some (oss +:+ body)
    /\ (todo <> [] -> starts body = true)
    /\ (todo = [] -> body = "")
    /\ forall pre rest done,
         parses_elements strtod_decimal (pre +:+ body +:+ ")" +:+ rest)
           (String.length pre) done
           (Returns (Some (lisp_list (done ++ todo)))
              (String.length pre + String.length body + 1)).
Proof.
  induction 1 as [|[e|] todo He _ IH]; cbn [forallb]; intros Hall oss.
  - exists "". rewrite append_empty_r. cbn [elements_toString].
    split; [reflexivity|]. split; [contradiction|]. split; [reflexivity|].
    intros pre rest done. rewrite app_nil_r. cbn [String.length].
    replace (String.length pre + 0 + 1) with (S (String.length pre)) by lia.
    change ("" +:+ ")" +:+ rest) with (String ")" rest).
    apply elements_close; [rewrite length_append; lia|apply currentChar_first].
  - apply andb_true_iff in Hall as [Hprintable Hall].
    destruct (He Hprintable) as (s & Hs & Hstart & Hparse).
    set (sep := match todo with [] => "" | _ :: _ => " " end).
    destruct (IH Hall ((oss +:+ s) +:+ sep)) as (body' & Hbody' & Hstart' & Hempty' & Hloop).
    exists (s +:+ sep +:+ body').
    cbn [elements_toString]. rewrite Hs. fold sep. rewrite Hbody'.
    split; [rewrite !append_assoc; reflexivity|].
    split; [intros _; destruct s; [discriminate Hstart|exact Hstart]|].
    split; [discriminate|].
    intros pre rest done.
    assert (Hstops : stops (sep +:+ body' +:+ ")" +:+ rest) = true).
    { unfold sep. destruct todo; [rewrite (Hempty' eq_refl)|]; reflexivity. }
    assert (Hskip : skipWhitespace (sep +:+ body' +:+ ")" +:+ rest) 0
                    = String.length sep).
    { unfold sep. destruct todo as [|p todo'].
      - rewrite (Hempty' eq_refl). apply skipWhitespace_stay. right. reflexivity.
      - rewrite (skipWhitespace_blank " " (body' +:+ ")" +:+ rest) eq_refl).
        rewrite skipWhitespace_stay; [lia|right].
        apply (starts_first body' (")" +:+ rest)), Hstart'. discriminate. }
    replace (pre +:+ (s +:+ sep +:+ body') +:+ ")" +:+ rest)
      with (pre +:+ s +:+ sep +:+ body' +:+ ")" +:+ rest)
      by (rewrite !append_assoc; reflexivity).
    eapply (elements_child _ _ _ _ (Some e) (String.length pre + String.length s)).
    + rewrite length_append. lia.
    + replace (String.length pre) with (String.length pre + 0) by lia.
      rewrite currentChar_shift.
      apply (starts_first s (sep +:+ body' +:+ ")" +:+ rest)), Hstart.
    + replace (String.length pre) with (String.length pre + 0) at 1 by lia.
      apply (proj1 (parses_shift strtod_decimal pre (s +:+ sep +:+ body' +:+ ")" +:+ rest))
               0 (Returns (Some e) (String.length s))).
      apply Hparse, Hstops.
    + replace (pre +:+ s +:+ sep +:+ body' +:+ ")" +:+ rest)
        with ((pre +:+ s) +:+ sep +:+ body' +:+ ")" +:+ rest)
        by (rewrite !append_assoc; reflexivity).
      replace (String.length pre + String.length s)
        with (String.length (pre +:+ s) + 0) by (rewrite length_append; lia).
      rewrite skipWhitespace_shift, Hskip.
      replace ((pre +:+ s) +:+ sep +:+ body' +:+ ")" +:+ rest)
        with (((pre +:+ s) +:+ sep) +:+ body' +:+ ")" +:+ rest)
        by (rewrite !append_assoc; reflexivity).
      specialize (Hloop ((pre +:+ s) +:+ sep) rest (done ++ [Some e])).
      rewrite <- app_assoc in Hloop. cbn [app] in Hloop.
      rewrite !length_append in *.
      replace (String.length pre + String.length s + 0 + String.length sep)
        with (String.length pre + String.length s + String.length sep) by lia.
      replace (String.length pre + (String.length s + (String.length sep + String.length body')) + 1)
        with (String.length pre + String.length s + String.length sep + String.length body' + 1)
        by lia.
      exact Hloop.
  - discriminate Hall.
Qed.

Lemma reads_as_all expr : reads_as to_string strtod_decimal expr.
Proof.
  induction expr as [value|name|elements IH] using lisp_object_nested_ind;
    intros Hprintable; cbn [printable] in Hprintable.
  - destruct (reads_back_parses value Hprintable) as [Hstart Hparse].
    exists (to_string value). split; [reflexivity|]. split; [exact Hstart|].
    intros rest Hstops. apply parses_append_stop; [exact Hparse|lia|auto].
  - destruct (plain_name_parses name Hprintable) as [Hstart Hparse].
    exists name. split; [reflexivity|]. split; [exact Hstart|].
    intros rest Hstops. apply parses_append_stop; [exact Hparse|lia|auto].
  - destruct (elements_read_back elements IH Hprintable "(")
      as (body & Hbody & _ & _ & Hloop).
    exists ("(" +:+ body +:+ ")"). cbn [toString]. rewrite Hbody.
    split; [rewrite append_assoc; reflexivity|]. split; [reflexivity|].
    intros rest _.
    assert (Hskip : skipWhitespace (("(" +:+ body +:+ ")") +:+ rest) 0 = 0)
      by (apply skipWhitespace_stay; right; reflexivity).
    apply parses_list; rewrite Hskip.
    + rewrite !length_append. cbn. lia.
    + reflexivity.
    + specialize (Hloop "(" rest []). cbn [app String.length] in Hloop.
      replace (("(" +:+ body +:+ ")") +:+ rest) with ("(" +:+ body +:+ ")" +:+ rest)
        by (rewrite !append_assoc; reflexivity).
      replace (String.length ("(" +:+ body +:+ ")")) with (1 + String.length body + 1)
        by (rewrite !length_append; cbn; lia).
      exact Hloop.
Qed.

(** X19.  Printing then reading gives the tree back: the text of a tree
    that holds no null pointer, whose symbols have names the reader
    reads whole and whose numbers [std::stod] reads back from their
    text, parses to that very tree, with the cursor at the end of the
    text. *)
Theorem toString_parse expr :
  printable to_string strtod_decimal expr = true ->
  exists s,
    toString to_string expr = Some s
    /\ parser_parse strtod_decimal s = Some (Returns (Some expr) (String.length s)).
Proof.
  intros H. destruct (reads_as_all expr H) as (s & Hs & _ & Hparse).
  exists s. split; [exact Hs|]. apply parses_parser_parse.
  specialize (Hparse "" eq_refl). rewrite append_empty_r in Hparse. exact Hparse.
Qed.

End round_trip.

Lemma toString_parse_witness :
  exists s,
    toString to_string_f
      (lisp_list [Some (lisp_symbol "+"); Some (lisp_number 1%float);
                  Some (lisp_list []); Some (lisp_symbol "a(b");
                  Some (lisp_list [Some (lisp_symbol "*"); Some (lisp_number 2.5%float)])])
    = Some s
    /\ parser_parse strtod_nearest s
       = Some (Returns
                 (Some (lisp_list [Some (lisp_symbol "+"); Some (lisp_number 1%float);
                                   Some (lisp_list []); Some (lisp_symbol "a(b");
                                   Some (lisp_list [Some (lisp_symbol "*");
                                                    Some (lisp_number 2.5%float)])]))
                 (String.length s)).
Proof.
  apply (toString_parse to_string_f strtod_nearest). vm_compute. reflexivity.
Defined.

(** ** Progress *)

Lemma parses_Returns_start strtod_decimal input i a index' :
  parses strtod_decimal input i (Returns a index') ->
  skipWhitespace input i < String.length input.
Proof. intros H. inversion H; subst; assumption. Qed.

Lemma parses_closing strtod_decimal input i r :
  parses strtod_decimal input i r ->
  skipWhitespace input i < String.length input ->
  currentChar input (skipWhitespace input i) = ")"%char ->
  r = Returns (Some (lisp_symbol "")) (skipWhitespace input i).
Proof.
  intros H Hstart Hclose.
  assert (Hsymbol : parse_symbol input (skipWhitespace input i)
                    = Returns (Some (lisp_symbol "")) (skipWhitespace input i)).
  { unfold parse_symbol. rewrite symbol_lexeme_run.
    destruct (run_stuck symbolic (String.length input - skipWhitespace input i) input
                (skipWhitespace input i)) as [-> ->]; [|reflexivity].
    unfold symbolic. rewrite Hclose. apply andb_false_r. }
  inversion H as [j Hend|j r' Hend Hopen Hels|j Hend Hopen Hnum Hr|j Hend Hopen Hnum Hr];
    subst.
  - lia.
  - rewrite Hclose in Hopen. discriminate Hopen.
  - unfold number_start in Hnum. rewrite Hclose in Hnum. discriminate Hnum.
  - exact Hsymbol.
Qed.

(** X20.  A parse that returns has consumed at least one character
    after the white space, with one exception: on a closing parenthesis
    it returns the symbol with the empty name and consumes nothing. *)
Theorem parse_consumes strtod_decimal input a index' :
  parser_parse strtod_decimal input = Some (Returns a index') ->
  skipWhitespace input 0 < index'
  \/ (currentChar input (skipWhitespace input 0) = ")"%char
      /\ index' = skipWhitespace input 0
      /\ a = Some (lisp_symbol "")).
Proof.
  intros H. destruct (parser_parse_parses strtod_decimal input) as (r & Hr & Hp).
  rewrite H in Hr. injection Hr as <-.
  pose proof (parses_Returns_start _ _ _ _ _ Hp) as Hstart.
  assert (Hidem : skipWhitespace input (skipWhitespace input 0) = skipWhitespace input 0).
  { apply skipWhitespace_stay. right. apply skipWhitespace_stop, Hstart. }
  destruct (Ascii.eqb (currentChar input (skipWhitespace input 0)) ")") eqn:Hclose.
  - right. apply Ascii.eqb_eq in Hclose. split; [exact Hclose|].
    pose proof (parses_closing _ _ _ _ Hp Hstart Hclose) as [= -> ->].
    split; reflexivity.
  - left. apply Ascii.eqb_neq in Hclose.
    apply (parses_skipWhitespace strtod_decimal input 0 (skipWhitespace input 0)) in Hp;
      [|symmetry; exact Hidem].
    pose proof (proj1 (parses_within strtod_decimal input) _ _ Hp ltac:(lia)) as Hin.
    cbn in Hin. destruct Hin as (_ & _ & Hstrict). apply Hstrict, Hclose.
Qed.

Lemma parse_consumes_witness :
  skipWhitespace " )" 0 < 1
  \/ (currentChar " )" (skipWhitespace " )" 0) = ")"%char
      /\ 1 = skipWhitespace " )" 0
      /\ Some (lisp_symbol "") = Some (lisp_symbol "")).
Proof.
  apply (parse_consumes strtod_nearest " )" (Some (lisp_symbol "")) 1).
  vm_compute. reflexivity.
Defined.

(** ** What [eval] returns *)

Lemma bind_ret_Returns {A B} (m : M A) (f : A -> B) env r env' :
  bind m (fun a => ret (f a)) env = Returns r env' -> exists a, r = f a.
Proof.
  unfold bind, ret. destruct (m env) as [a env1| |]; [|discriminate..].
  intros [= <- _]. eauto.
Qed.

(** X21.  In every table the interpreter can hold, [eval] returns a
    number, the null pointer, or one of the four operator symbols; it
    never returns a list, and never a symbol of another name. *)
Theorem eval_returns_kinds expr env r env' :
  registry_state env ->
  eval expr env = Returns r env' ->
  is_number r = true
  \/ r = None
  \/ exists name, r = Some (lisp_symbol name) /\ is_operator name = true.
Proof.
  intros Hstate. destruct expr as [[value|name|elements]|]; [| | |discriminate].
  - intros [= <- _]. left. reflexivity.
  - rewrite eval_symbol. destruct (Hstate name) as [E|[_ E]]; rewrite E.
    + rewrite interpreter_init_lookup. case_bool_decide as Hname.
      * intros [= <- _]. right. right. exists name. split; [reflexivity|].
        apply is_operator_names, Hname.
      * intros [= <- _]. right. left. reflexivity.
    + intros [= <- _]. right. left. reflexivity.
  - destruct elements as [|operatorSymbol args].
    { intros [= <- _]. right. left. reflexivity. }
    cbn [eval]. rewrite eval_object_list_cons.
    destruct operatorSymbol as [[value|name|elements]|]; try discriminate.
    assert (Hnumber : forall m : M double,
               bind m (fun result => ret (Some (lisp_number result))) env
               = Returns r env' -> is_number r = true).
    { intros m H. apply bind_ret_Returns in H as [a ->]. reflexivity. }
    assert (Hfirst : forall op,
               match args with
               | [] => undefined
               | arg0 :: rest =>
                   let* result := number_value eval arg0 in
                   let* result := reduce eval op rest result in
                   ret (Some (lisp_number result))
               end env = Returns r env' -> is_number r = true).
    { intros op. destruct args as [|arg0 rest]; [discriminate|].
      unfold bind at 1. destruct (number_value eval arg0 env) as [v env1| |];
        [|discriminate..].
      intros H. apply bind_ret_Returns in H as [a ->]. reflexivity. }
    destruct (String.eqb name "+"); [intros H; left; exact (Hnumber _ H)|].
    destruct (String.eqb name "-"); [intros H; left; exact (Hfirst _ H)|].
    destruct (String.eqb name "*"); [intros H; left; exact (Hnumber _ H)|].
    destruct (String.eqb name "/"); [intros H; left; exact (Hfirst _ H)|].
    discriminate.
Qed.

Lemma eval_returns_kinds_witness :
  is_number (Some (lisp_symbol "*")) = true
  \/ Some (lisp_symbol "*") = None
  \/ exists name, Some (lisp_symbol "*") = Some (lisp_symbol name)
                  /\ is_operator name = true.
Proof.
  apply (eval_returns_kinds (Some (lisp_symbol "*")) interpreter_init
           (Some (lisp_symbol "*")) interpreter_init).
  - intros name. left. reflexivity.
  - reflexivity.
Defined.
